(** * gct: a terminal crypto tracker -- aggregation, rendering bounds, reconnect

    A shallow embedding of [main.go]: the OHLC aggregation of
    [ProcessMessage], the scaling arithmetic of [DrawCandles] and
    [DrawVolume], and the read loop of [Connect].

    Modelling conventions.
    - [float64] values are modelled twice.  The aggregation, which only
      compares and copies prices, takes them as exact rationals ([Q]):
      comparison, [math.Min] and [math.Max] are exact on finite floats.
      Where the renderer does arithmetic on them, the rational definitions
      ([pad], [column], [barStop]) leave the rounding of [+ - * /] out; a
      division whose divisor is zero yields no rational (the float would
      be an infinity or a NaN, and its conversion to [int] is
      platform-defined): it is the error case of [fdiv].  The padding of
      the bounds and the column formula of [DrawCandles] are modelled a
      second time on IEEE 754 binary64 values, rounding included
      ([pad64], [candleBounds64], [column64]).
    - [int64] is a 64-bit two's-complement integer: [Z] with [wrap64]
      applied wherever the source does arithmetic on it.  [int] is taken
      as 64 bits wide as well, except in the connector, whose loop is also
      given for either width of [int] ([readLoopOn]).
    - a string is its bytes; [range] over a string decodes UTF-8
      ([runes]).
    - a [time.Time] is the number of nanoseconds since Go's zero time, a
      [time.Duration] a number of nanoseconds.
    - a slice of pointers to buckets is a list of buckets; writing through
      the pointer to the last bucket is [modifyLast]. *)

From Stdlib Require Import ZArith QArith Qround List Sorted Lia Lqa.
From Stdlib Require Import String Ascii Bool DecimalString SpecFloat.
Import ListNotations.
Open Scope Z_scope.

(** ** Machine integers, time and float helpers *)

Definition wrap64 (z : Z) : Z := (z + 2 ^ 63) mod 2 ^ 64 - 2 ^ 63.

Definition Second : Z := 1000000000.

(** [time.Time.Truncate]: a non-positive [d] leaves [t] unchanged, otherwise
    [t] is rounded down to a multiple of [d] since the zero time. *)
Definition Truncate (t d : Z) : Z :=
  if d <=? 0 then t else t - t mod d.

(** [math.MaxFloat32] = 2^127 * (2 - 2^-23). *)
Definition MaxFloat32 : Q := inject_Z (2 ^ 128 - 2 ^ 104).

(** [math.Max] and [math.Min] on finite floats: [if x > y { return x };
    return y] and [if x < y { return x }; return y]. *)
Definition math_Max (x y : Q) : Q :=
  match (x ?= y)%Q with Gt => x | _ => y end.

Definition math_Min (x y : Q) : Q :=
  match (x ?= y)%Q with Lt => x | _ => y end.

(** The conversion [int(x)] of a finite float truncates toward zero. *)
Definition int_of_float (x : Q) : Z := Z.quot (Qnum x) (Zpos (Qden x)).

(** Float division; [None] when the divisor is zero. *)
Definition fdiv (x y : Q) : option Q :=
  if Qeq_bool y 0 then None else Some (x / y)%Q.

(** ** Data model *)

(** The fields of [gdax.Message] that the program reads. *)
Record Message := mkMessage {
  Side : string;
  Price : Q;
  Time : Z
}.

Record Bucket := mkBucket {
  Open : Q;
  Close : Q;
  Max : Q;
  Min : Q;
  Trades : Z;
  Start : Z;
  Duration : Z
}.

Definition setClose (p : Q) (b : Bucket) : Bucket :=
  mkBucket (Open b) p (Max b) (Min b) (Trades b) (Start b) (Duration b).

(** [bucket.Trades++; bucket.Max = math.Max(..); bucket.Min = math.Min(..)] *)
Definition account (p : Q) (b : Bucket) : Bucket :=
  mkBucket (Open b) (Close b) (math_Max (Max b) p) (math_Min (Min b) p)
           (wrap64 (Trades b + 1)) (Start b) (Duration b).

(** The bucket literal of [ProcessMessage]. *)
Definition freshBucket (candleSize : Z) (message : Message) (t : Z) : Bucket :=
  mkBucket (Price message) (Price message) 0 MaxFloat32 0 t candleSize.

(** A write through the pointer held in the last slot of the slice. *)
Fixpoint modifyLast {A : Type} (f : A -> A) (l : list A) : list A :=
  match l with
  | [] => []
  | [x] => [f x]
  | x :: t => x :: modifyLast f t
  end.

(** ** Aggregator *)

Section Aggregator.

(** The [candle_size] flag. *)
Variable candleSize : Z.

Definition State : Type := (list Message * list Bucket)%type.

Definition trades (st : State) : list Message := fst st.
Definition buckets (st : State) : list Bucket := snd st.

Definition ProcessMessage (message : Message) (st : State) : State :=
  let trades := trades st ++ [message] in
  let t := Truncate (Time message) candleSize in
  let buckets :=
    match buckets st with
    | [] => [freshBucket candleSize message t]
    | _ => buckets st
    end in
  let buckets :=
    if Start (last buckets (freshBucket candleSize message t)) =? t
    then modifyLast (setClose (Price message)) buckets
    else buckets ++ [freshBucket candleSize message t] in
  (trades, modifyLast (account (Price message)) buckets).

(** [main] starts from empty slices and calls [ProcessMessage] once per
    message taken from the channel. *)
Definition initial : State := ([], []).

Definition run (ms : list Message) : State :=
  fold_left (fun st m => ProcessMessage m st) ms initial.

(** The window a trade belongs to and the trades routed to each bucket, in
    arrival order: a trade joins the last group when its truncated time is
    that group's, and opens a new group otherwise. *)
Definition windowStart (m : Message) : Z := Truncate (Time m) candleSize.

Definition routeStep (gs : list (Z * list Message)) (m : Message)
  : list (Z * list Message) :=
  match gs with
  | [] => [(windowStart m, [m])]
  | _ =>
    if fst (last gs (0, [])) =? windowStart m
    then modifyLast (fun g => (fst g, snd g ++ [m])) gs
    else gs ++ [(windowStart m, [m])]
  end.

Definition routed (ms : list Message) : list (Z * list Message) :=
  fold_left routeStep ms [].

(** A group holds trades of one window only, and at least one. *)
Definition oneWindow (g : Z * list Message) : Prop :=
  snd g <> [] /\ Forall (fun m => windowStart m = fst g) (snd g).

(** The bucket a trade opens, once the trade is accounted for. *)
Definition opened (m : Message) : Bucket :=
  mkBucket (Price m) (Price m) (math_Max 0 (Price m))
           (math_Min MaxFloat32 (Price m)) 1 (windowStart m) candleSize.

(** The last bucket once one more trade of its window is accounted for. *)
Definition absorbed (m : Message) (b : Bucket) : Bucket :=
  mkBucket (Open b) (Price m) (math_Max (Max b) (Price m))
           (math_Min (Min b) (Price m)) (wrap64 (Trades b + 1))
           (Start b) (Duration b).

End Aggregator.

(** The distinct values of a list in the order of their first occurrence. *)
Definition distinct (l : list Z) : list Z :=
  fold_left (fun acc x => if existsb (Z.eqb x) acc then acc else acc ++ [x])
            l [].

(** A Go slice has an [int] length, so it holds fewer than 2^63 elements.
    [ProcessMessage] appends every message to [trades]: the messages
    received so far always make such a slice. *)
Definition sliceSized {A : Type} (l : list A) : Prop :=
  Z.of_nat (List.length l) < 2 ^ 63.

(** [floor(timestamp / duration)] of each trade. *)
Definition windowIndexes (candleSize : Z) (ms : list Message) : list Z :=
  map (fun m => Time m / candleSize) ms.

Definition nonDecreasing (ms : list Message) : Prop :=
  StronglySorted Z.le (map Time ms).

Definition strictlyIncreasing (bs : list Bucket) : Prop :=
  StronglySorted Z.lt (map Start bs).

(** [x] is the least (greatest) element of [l]. *)
Definition is_min (x : Q) (l : list Q) : Prop :=
  In x l /\ Forall (fun y => (x <= y)%Q) l.

Definition is_max (x : Q) (l : list Q) : Prop :=
  In x l /\ Forall (fun y => (y <= x)%Q) l.

(** A bucket carries the open, close, low and high of the trades of its
    group. *)
Definition summarises (b : Bucket) (g : Z * list Message) : Prop :=
  let prices := map Price (snd g) in
  Start b = fst g /\
  Open b = hd 0%Q prices /\
  Close b = last prices 0%Q /\
  is_min (Min b) prices /\
  is_max (Max b) prices.

(** Prices between the two sentinels of [ProcessMessage]. *)
Definition priceInRange (m : Message) : Prop :=
  (0 <= Price m)%Q /\ (Price m <= MaxFloat32)%Q.

(** ** Canvas *)

Inductive Attribute :=
  ColorDefault | ColorRed | ColorGreen | ColorBlue | ColorWhite.

(** A rune is its code point. *)
Definition rune : Type := Z.

Definition rune_vertical : rune := 9474.     (* U+2502 *)
Definition rune_horizontal : rune := 9472.   (* U+2500 *)
Definition rune_top_left : rune := 9484.     (* U+250C *)
Definition rune_bottom_left : rune := 9492.  (* U+2514 *)
Definition rune_top_right : rune := 9488.    (* U+2510 *)
Definition rune_bottom_right : rune := 9496. (* U+2518 *)
Definition rune_block : rune := 9608.        (* U+2588 *)

(** One call of [termbox.SetCell]. *)
Record Cell := mkCell {
  cell_x : Z;
  cell_y : Z;
  cell_rune : rune;
  cell_fg : Attribute;
  cell_bg : Attribute
}.

Record Frame := mkFrame { x : Z; y : Z; w : Z; h : Z }.

(** The values [a, a+1, .., b] of [for i := a; i <= b; i++]. *)
Definition upto (a b : Z) : list Z :=
  map (fun k => a + Z.of_nat k) (seq 0 (Z.to_nat (b - a + 1))).

(** The bytes of a string. *)
Definition bytes (msg : string) : list Z :=
  map (fun c => Z.of_N (N_of_ascii c)) (list_ascii_of_string msg).

(** [utf8.RuneError], U+FFFD. *)
Definition RuneError : rune := 65533.

Definition within (lo hi b : Z) : bool := (lo <=? b) && (b <=? hi).

(** One step of [for _, c := range msg]: the rune encoded at the head of
    the bytes and the number of bytes it takes, as [utf8.DecodeRune] finds
    them.  The first byte fixes the length and the range allowed for the
    second byte (no overlong form, no surrogate, nothing above U+10FFFF);
    an invalid or truncated encoding is [RuneError] and takes one byte. *)
Definition decodeRune (s0 : Z) (rest : list Z) : rune * nat :=
  if s0 <? 128 then (s0, 1%nat)
  else if within 194 223 s0 then
    match rest with
    | s1 :: _ =>
      if within 128 191 s1
      then (Z.lor (Z.shiftl (Z.land s0 31) 6) (Z.land s1 63), 2%nat)
      else (RuneError, 1%nat)
    | _ => (RuneError, 1%nat)
    end
  else if within 224 239 s0 then
    let lo := if s0 =? 224 then 160 else 128 in
    let hi := if s0 =? 237 then 159 else 191 in
    match rest with
    | s1 :: s2 :: _ =>
      if within lo hi s1 && within 128 191 s2
      then (Z.lor (Z.shiftl (Z.land s0 15) 12)
                  (Z.lor (Z.shiftl (Z.land s1 63) 6) (Z.land s2 63)), 3%nat)
      else (RuneError, 1%nat)
    | _ => (RuneError, 1%nat)
    end
  else if within 240 244 s0 then
    let lo := if s0 =? 240 then 144 else 128 in
    let hi := if s0 =? 244 then 143 else 191 in
    match rest with
    | s1 :: s2 :: s3 :: _ =>
      if within lo hi s1 && within 128 191 s2 && within 128 191 s3
      then (Z.lor (Z.shiftl (Z.land s0 7) 18)
                  (Z.lor (Z.shiftl (Z.land s1 63) 12)
                         (Z.lor (Z.shiftl (Z.land s2 63) 6) (Z.land s3 63))),
            4%nat)
      else (RuneError, 1%nat)
    | _ => (RuneError, 1%nat)
    end
  else (RuneError, 1%nat).

(** The runes of a byte sequence; every step takes at least one byte, so
    as many steps as there are bytes decode all of it. *)
Fixpoint decodeRunes (steps : nat) (bs : list Z) : list rune :=
  match steps, bs with
  | S k, s0 :: rest =>
    let (r, size) := decodeRune s0 rest in
    r :: decodeRunes k (skipn (size - 1) rest)
  | _, _ => []
  end.

(** The runes [range msg] yields. *)
Definition runes (msg : string) : list rune :=
  decodeRunes (List.length (bytes msg)) (bytes msg).

Definition len (msg : string) : Z := Z.of_nat (String.length msg).

Definition DrawBox (x y w h : Z) (fg bg : Attribute) : list Cell :=
  flat_map (fun i => [mkCell x (y + i) rune_vertical fg bg;
                      mkCell (x + w) (y + i) rune_vertical fg bg])
           (upto 0 (h - 1))
  ++ flat_map (fun i => [mkCell (x + i) y rune_horizontal fg bg;
                         mkCell (x + i) (y + h) rune_horizontal fg bg])
              (upto 0 (w - 1))
  ++ [mkCell x y rune_top_left fg bg;
      mkCell x (y + h) rune_bottom_left fg bg;
      mkCell (x + w) y rune_top_right fg bg;
      mkCell (x + w) (y + h) rune_bottom_right fg bg].

Definition SetCell (f : Frame) (cx cy : Z) (r : rune) (fg bg : Attribute)
  : Cell :=
  mkCell (x f + cx) (y f + cy) r fg bg.

Definition Box (f : Frame) (fg bg : Attribute) : list Cell :=
  DrawBox (x f) (y f) (w f) (h f) fg bg.

Fixpoint PrintRunes (f : Frame) (cx cy : Z) (fg bg : Attribute)
  (msg : list rune) : list Cell :=
  match msg with
  | [] => []
  | c :: rest => SetCell f cx cy c fg bg :: PrintRunes f (cx + 1) cy fg bg rest
  end.

Definition Print (f : Frame) (cx cy : Z) (fg bg : Attribute) (msg : string)
  : list Cell :=
  PrintRunes f cx cy fg bg (runes msg).

Definition PrintHeader (f : Frame) (msg : string) (fg bg : Attribute)
  : list Cell :=
  Print f (Qceiling (inject_Z (w f) / 2 - inject_Z (len msg) / 2)) 0 fg bg msg.

(** [fmt.Sprintf("%d", n)]. *)
Definition Sprintf_d (n : Z) : string := NilZero.string_of_int (Z.to_int n).

(** ** Renderer *)

Section Renderer.

(** [fmt.Sprintf("%.2f", v)], the formatting of a float with two decimals. *)
Variable Sprintf_2f : Q -> string.

(** The loop header shared by the panels:
    [for line, j := 1, len(buckets)-1; j >= 0 && line < f.h; line, j = line+1, j-1]
    pairs each visited bucket with its row. *)
Fixpoint rowsFrom (height line : Z) (newestFirst : list Bucket)
  : list (Z * Bucket) :=
  match newestFirst with
  | [] => []
  | bucket :: older =>
    if line <? height then (line, bucket) :: rowsFrom height (line + 1) older
    else []
  end.

Definition rows (f : Frame) (bs : list Bucket) : list (Z * Bucket) :=
  rowsFrom (h f) 1 (rev bs).

(** The buckets that get a row, oldest first. *)
Definition visible (f : Frame) (bs : list Bucket) : list Bucket :=
  rev (map snd (rows f bs)).

(** Lines 195-199 of [DrawCandles]. *)
Definition rawBounds (bs : list Bucket) : Q * Q :=
  fold_left (fun bounds box =>
               (math_Min (fst bounds) (Min box),
                math_Max (snd bounds) (Max box)))
            bs (MaxFloat32, 0%Q).

(** Lines 200-203, in exact arithmetic: the difference and the two
    paddings are not rounded.  [pad64] is the same step on binary64
    values. *)
Definition pad (bounds : Q * Q) : Q * Q :=
  match (snd bounds - fst bounds ?= 100)%Q with
  | Lt => (fst bounds - 50, snd bounds + 50)%Q
  | _ => bounds
  end.

Definition candleBounds (bs : list Bucket) : Q * Q := pad (rawBounds bs).

Definition lowerBound (bs : list Bucket) : Q := fst (candleBounds bs).
Definition upperBound (bs : list Bucket) : Q := snd (candleBounds bs).
Definition priceSpread (bs : list Bucket) : Q :=
  (upperBound bs - lowerBound bs)%Q.

(** [1 + (v-lowerBound)/priceSpread*float64(candleFrame.w-2)], in exact
    arithmetic; [column64] is the same expression on binary64 values. *)
Definition column (f : Frame) (lower spread v : Q) : option Q :=
  match fdiv (v - lower) spread with
  | Some q => Some (1 + q * inject_Z (w f - 2))%Q
  | None => None
  end.

(** [for i := int(start); i <= int(stop); i++ { f.SetCell(i, line, r, fg, bg) }] *)
Definition span (f : Frame) (line : Z) (r : rune) (fg bg : Attribute)
  (start stop : Q) : list Cell :=
  map (fun i => SetCell f i line r fg bg)
      (upto (int_of_float start) (int_of_float stop)).

Definition candleColor (bucket : Bucket) : Attribute :=
  match (Close bucket ?= Open bucket)%Q with
  | Lt => ColorRed
  | _ => ColorGreen
  end.

Definition legend (f : Frame) (lower upper : Q) : list Cell :=
  Print f 1 0 ColorGreen ColorDefault (Sprintf_2f lower)
  ++ Print f (w f - len (Sprintf_2f upper)) 0 ColorGreen ColorDefault
           (Sprintf_2f upper).

(** One iteration of the row loop of [DrawCandles]. *)
Definition candleRow (f : Frame) (lower upper : Q) (row : Z * Bucket)
  : option (list Cell) :=
  let (line, bucket) := row in
  let spread := (upper - lower)%Q in
  let fg := candleColor bucket in
  match column f lower spread (math_Min (Min bucket) (Max bucket)),
        column f lower spread (math_Max (Min bucket) (Max bucket)),
        column f lower spread (math_Min (Open bucket) (Close bucket)),
        column f lower spread (math_Max (Open bucket) (Close bucket)) with
  | Some wickStart, Some wickStop, Some bodyStart, Some bodyStop =>
    Some (legend f lower upper
          ++ span f line rune_horizontal fg ColorDefault wickStart wickStop
          ++ span f line rune_block fg ColorDefault bodyStart bodyStop)
  | _, _, _, _ => None
  end.

(** Collects the cells of the rows; [None] as soon as one row divides by
    zero. *)
Fixpoint collect {A : Type} (draw : A -> option (list Cell)) (l : list A)
  : option (list Cell) :=
  match l with
  | [] => Some []
  | a :: rest =>
    match draw a, collect draw rest with
    | Some cells, Some more => Some (cells ++ more)
    | _, _ => None
    end
  end.

Definition candleRows (f : Frame) (bs : list Bucket) : option (list Cell) :=
  collect (candleRow f (lowerBound bs) (upperBound bs)) (rows f bs).

Definition DrawCandles (f : Frame) (bs : list Bucket) : option (list Cell) :=
  match candleRows f bs with
  | Some cells =>
    Some (Box f ColorWhite ColorDefault
          ++ PrintHeader f "Price" ColorWhite ColorDefault
          ++ cells)
  | None => None
  end.

(** Lines 240-243 of [DrawVolume]; [float64(box.Trades)] is exact here. *)
Definition volumeUpperBound (bs : list Bucket) : Q :=
  fold_left (fun bound box => math_Max bound (inject_Z (Trades box))) bs 0%Q.

(** [float64(bucket.Trades) / volumeSpread * float64(volumeFrame.w-1)], in
    exact arithmetic: the quotient and the product are not rounded. *)
Definition barStop (f : Frame) (volumeSpread : Q) (bucket : Bucket)
  : option Q :=
  match fdiv (inject_Z (Trades bucket)) volumeSpread with
  | Some q => Some (q * inject_Z (w f - 1))%Q
  | None => None
  end.

(** One iteration of the row loop of [DrawVolume]. *)
Definition volumeRow (f : Frame) (volumeSpread : Q) (row : Z * Bucket)
  : option (list Cell) :=
  let (line, bucket) := row in
  match barStop f volumeSpread bucket with
  | Some stop =>
    Some (span f line rune_horizontal ColorBlue ColorDefault 1 stop)
  | None => None
  end.

Definition volumeBars (f : Frame) (bs : list Bucket) : option (list Cell) :=
  collect (volumeRow f (volumeUpperBound bs)) (rows f bs).

Definition DrawVolume (f : Frame) (bs : list Bucket) : option (list Cell) :=
  let volumeMaxStr := Sprintf_d (int_of_float (volumeUpperBound bs)) in
  match volumeBars f bs with
  | Some cells =>
    Some (Box f ColorWhite ColorDefault
          ++ PrintHeader f "Volume" ColorWhite ColorDefault
          ++ Print f (w f - len volumeMaxStr) (h f) ColorGreen ColorDefault
                   volumeMaxStr
          ++ cells)
  | None => None
  end.

(** The panel geometry of [Draw] for a [width] x [height] terminal. *)
Definition candleWidth (volumeWidth tradeWidth width : Z) : Z :=
  width - (volumeWidth + tradeWidth + 3).

Definition volumeFrame (volumeWidth height : Z) : Frame :=
  mkFrame 0 1 volumeWidth (height - 2).

Definition candleFrame (volumeWidth tradeWidth width height : Z) : Frame :=
  mkFrame (volumeWidth + 1) 1 (candleWidth volumeWidth tradeWidth width)
          (height - 2).

End Renderer.

(** ** Stream connector *)

(** The outcome of one [wsConn.ReadJSON(&message)]: an error, or the value
    of [message] after the call. *)
Inductive ReadResult :=
| ReadErr
| ReadOk (message : Message).

(** What the connector does that can be observed from outside. *)
Inductive Action :=
| Dial                       (* the body of [Connect] up to the goroutine *)
| Sleep (d : Z)              (* [time.Sleep(d)], [d] in nanoseconds *)
| Send (message : Message).  (* [out <- message] *)

(** [time.Duration(connectionErrCount*connectionErrCount) * time.Second] *)
Definition backoff (connectionErrCount : Z) : Z :=
  wrap64 (wrap64 (connectionErrCount * connectionErrCount) * Second).

(** The goroutine of [Connect], run against the outcomes of its successive
    reads, from a given value of the global [connectionErrCount].  After an
    error the goroutine sleeps and calls [Connect] again ([Dial]), whose
    goroutine reads on while the old one leaves its loop; the result is the
    final counter and the actions in order.  An error of the dial or of the
    subscription is only printed by [Connect]: what the reads then return
    is part of the given outcomes. *)
Fixpoint readLoop (connectionErrCount : Z) (reads : list ReadResult)
  : Z * list Action :=
  match reads with
  | [] => (connectionErrCount, [])
  | ReadErr :: rest =>
    let connectionErrCount := wrap64 (connectionErrCount + 1) in
    let (final, actions) := readLoop connectionErrCount rest in
    (final, Sleep (backoff connectionErrCount) :: Dial :: actions)
  | ReadOk message :: rest =>
    if (String.length (Side message) =? 0)%nat
    then readLoop connectionErrCount rest
    else
      let (final, actions) := readLoop 0 rest in
      (final, Send message :: actions)
  end.

Definition Connect (connectionErrCount : Z) (reads : list ReadResult)
  : Z * list Action :=
  let (final, actions) := readLoop connectionErrCount reads in
  (final, Dial :: actions).

(** [GetMessages]: the first [Connect], with the counter at its initial 0. *)
Definition GetMessages (reads : list ReadResult) : Z * list Action :=
  Connect 0 reads.

(** The time a [time.Sleep(d)] suspends its goroutine: a negative or zero
    duration returns at once. *)
Definition suspension (d : Z) : Z := Z.max 0 d.

(** The suspensions of a run, in nanoseconds, in order. *)
Fixpoint waits (actions : list Action) : list Z :=
  match actions with
  | [] => []
  | Sleep d :: rest => suspension d :: waits rest
  | _ :: rest => waits rest
  end.

Definition dials (actions : list Action) : nat :=
  List.length (filter (fun a => match a with Dial => true | _ => false end)
                      actions).

Definition failures (reads : list ReadResult) : nat :=
  List.length (filter (fun r => match r with ReadErr => true | _ => false end)
                      reads).

(** The suspension that follows the [n]-th of [n] read failures in a row,
    counted from a counter at 0. *)
Definition nthWait (n : nat) : Z :=
  last (waits (snd (readLoop 0 (repeat ReadErr n)))) 0.

(** Sleeping [i * i] seconds and dialling again, for [i] from [first] on. *)
Definition quadraticRetries (first count : nat) : list Action :=
  flat_map (fun i => [Sleep (Z.of_nat i * Z.of_nat i * Second); Dial])
           (seq first count).

(** The greatest counter whose square, in nanoseconds, fits a
    [time.Duration]. *)
Definition maxExactBackoff : nat := Z.to_nat 96038.

(** A read that does not reset the counter: a failure, or a message without
    a side. *)
Definition noReset (r : ReadResult) : Prop :=
  match r with
  | ReadErr => True
  | ReadOk message => Side message = EmptyString
  end.

(** A read that [Connect] skips: its message has no side. *)
Definition skipped (r : ReadResult) : Prop :=
  match r with
  | ReadErr => False
  | ReadOk message => Side message = EmptyString
  end.

(** *** The platform's [int]

    [connectionErrCount] is an [int]: 32 bits wide on some platforms, 64
    on others.  The same loop with the width as a parameter; the
    [time.Duration] is an [int64] everywhere. *)

Definition wrapInt (bits z : Z) : Z :=
  (z + 2 ^ (bits - 1)) mod 2 ^ bits - 2 ^ (bits - 1).

Definition backoffOn (bits connectionErrCount : Z) : Z :=
  wrap64 (wrapInt bits (connectionErrCount * connectionErrCount) * Second).

Fixpoint readLoopOn (bits connectionErrCount : Z) (reads : list ReadResult)
  : Z * list Action :=
  match reads with
  | [] => (connectionErrCount, [])
  | ReadErr :: rest =>
    let connectionErrCount := wrapInt bits (connectionErrCount + 1) in
    let (final, actions) := readLoopOn bits connectionErrCount rest in
    (final, Sleep (backoffOn bits connectionErrCount) :: Dial :: actions)
  | ReadOk message :: rest =>
    if (String.length (Side message) =? 0)%nat
    then readLoopOn bits connectionErrCount rest
    else
      let (final, actions) := readLoopOn bits 0 rest in
      (final, Send message :: actions)
  end.

(** The time a run has spent suspended, in nanoseconds. *)
Definition slept (actions : list Action) : Z :=
  fold_right Z.add 0 (waits actions).

Definition year : Z := 365 * 24 * 3600 * Second.

(** The greatest counter whose square fits an [int] of 32 bits. *)
Definition maxExactCount : nat := Z.to_nat 46340.

(** [1^2 + 2^2 + .. + m^2] *)
Fixpoint sumSquares (m : nat) : Z :=
  match m with
  | O => 0
  | S k => sumSquares k + Z.of_nat (S k) * Z.of_nat (S k)
  end.

(** ** The column formula in IEEE 754 binary64

    The same expression of [DrawCandles] on [float64] values as the
    hardware computes them: [spec_float] with 53 bits of precision and
    round to nearest even. *)

Definition f64_add : spec_float -> spec_float -> spec_float := SFadd 53 1024.
Definition f64_sub : spec_float -> spec_float -> spec_float := SFsub 53 1024.
Definition f64_mul : spec_float -> spec_float -> spec_float := SFmul 53 1024.
Definition f64_div : spec_float -> spec_float -> spec_float := SFdiv 53 1024.

(** The conversion [float64(n)] of an integer. *)
Definition f64_of_int (n : Z) : spec_float := binary_normalize 53 1024 n 0 false.

(** [1 + (v-lowerBound)/priceSpread*float64(candleFrame.w-2)] *)
Definition column64 (width : Z) (lower spread v : spec_float) : spec_float :=
  f64_add (f64_of_int 1)
          (f64_mul (f64_div (f64_sub v lower) spread)
                   (f64_of_int (width - 2))).

Definition finite_or_zero (v : spec_float) : bool :=
  match v with
  | S754_zero _ | S754_finite _ _ _ => true
  | _ => false
  end.

Definition spec_float_eqb (u v : spec_float) : bool :=
  match u, v with
  | S754_zero s, S754_zero s' => Bool.eqb s s'
  | S754_infinity s, S754_infinity s' => Bool.eqb s s'
  | S754_nan, S754_nan => true
  | S754_finite s m e, S754_finite s' m' e' =>
    Bool.eqb s s' && Pos.eqb m m' && Z.eqb e e'
  | _, _ => false
  end.

(** What the column formula needs of a panel width: [float64(width-2)] is
    finite and [1 + 1*float64(width-2)] is [float64(width-1)]. *)
Definition widthCheck (width : Z) : bool :=
  finite_or_zero (f64_of_int (width - 2)) &&
  spec_float_eqb
    (f64_add (f64_of_int 1)
             (f64_mul (f64_of_int 1) (f64_of_int (width - 2))))
    (f64_of_int (width - 1)).

Fixpoint widthsFrom (count : nat) (width : Z) : bool :=
  match count with
  | O => true
  | S k => widthCheck width && widthsFrom k (width + 1)
  end.

(** ** The bounds of [DrawCandles] in IEEE 754 binary64

    Lines 195-204 on [float64] values as the hardware computes them. *)

(** A [Bucket] with its prices as binary64 values. *)
Record Bucket64 := mkBucket64 {
  Open64 : spec_float;
  Close64 : spec_float;
  Max64 : spec_float;
  Min64 : spec_float;
  Trades64 : Z;
  Start64 : Z;
  Duration64 : Z
}.

(** [math.IsInf(f, sign)] *)
Definition IsInf (f : spec_float) (sign : Z) : bool :=
  match f with
  | S754_infinity s => if 0 <? sign then negb s else if sign <? 0 then s else true
  | _ => false
  end.

(** [math.IsNaN(f)] *)
Definition IsNaN (f : spec_float) : bool :=
  match f with
  | S754_nan => true
  | _ => false
  end.

(** [math.Signbit(x)], of a value that is not a NaN. *)
Definition Signbit (f : spec_float) : bool :=
  match f with
  | S754_zero s | S754_infinity s | S754_finite s _ _ => s
  | S754_nan => false
  end.

(** [math.Max]: the special cases for [+Inf], NaN and the zeros, then
    [if x > y { return x }; return y]. *)
Definition math_Max64 (x y : spec_float) : spec_float :=
  if IsInf x 1 || IsInf y 1 then S754_infinity false
  else if IsNaN x || IsNaN y then S754_nan
  else if SFeqb x (S754_zero false) && SFeqb x y
       then (if Signbit x then y else x)
  else if SFltb y x then x else y.

(** [math.Min]: the special cases for [-Inf], NaN and the zeros, then
    [if x < y { return x }; return y]. *)
Definition math_Min64 (x y : spec_float) : spec_float :=
  if IsInf x (-1) || IsInf y (-1) then S754_infinity true
  else if IsNaN x || IsNaN y then S754_nan
  else if SFeqb x (S754_zero false) && SFeqb x y
       then (if Signbit x then x else y)
  else if SFltb x y then x else y.

(** [math.MaxFloat32] = 2^127 * (2 - 2^-23), a binary64 value. *)
Definition MaxFloat32_64 : spec_float := f64_of_int (2 ^ 128 - 2 ^ 104).

(** Lines 195-199. *)
Definition rawBounds64 (bs : list Bucket64) : spec_float * spec_float :=
  fold_left (fun bounds box =>
               (math_Min64 (fst bounds) (Min64 box),
                math_Max64 (snd bounds) (Max64 box)))
            bs (MaxFloat32_64, S754_zero false).

(** Lines 200-203. *)
Definition pad64 (bounds : spec_float * spec_float)
  : spec_float * spec_float :=
  if SFltb (f64_sub (snd bounds) (fst bounds)) (f64_of_int 100)
  then (f64_sub (fst bounds) (f64_of_int 50),
        f64_add (snd bounds) (f64_of_int 50))
  else bounds.

Definition candleBounds64 (bs : list Bucket64) : spec_float * spec_float :=
  pad64 (rawBounds64 bs).

(** Line 204. *)
Definition priceSpread64 (bs : list Bucket64) : spec_float :=
  f64_sub (snd (candleBounds64 bs)) (fst (candleBounds64 bs)).

(** The binary64 value of a price written with two decimals. *)
Definition f64_of_cents (cents : Z) : spec_float :=
  f64_div (f64_of_int cents) (f64_of_int 100).

(** ** The rest of the canvas *)

Definition rune_space : rune := 32.

(** [print_tb]: one cell per rune, [x] advancing. *)
Fixpoint print_tb (x y : Z) (fg bg : Attribute) (msg : list rune)
  : list Cell :=
  match msg with
  | [] => []
  | c :: rest => mkCell x y c fg bg :: print_tb (x + 1) y fg bg rest
  end.

(** [Frame.Clear]; the inner loop of the source runs up to [f.x]. *)
Definition Clear (f : Frame) : list Cell :=
  flat_map (fun cy =>
              map (fun cx => SetCell f cx cy rune_space ColorDefault ColorDefault)
                  (upto 0 (x f - 1)))
           (upto 0 (h f - 1)).

(** The cell the screen shows at a position after a sequence of
    [termbox.SetCell] calls: the last one written there. *)
Definition cellAt (cells : list Cell) (cx cy : Z) : option Cell :=
  find (fun c => (cell_x c =? cx) && (cell_y c =? cy)) (rev cells).

(** ** The trade panel *)

(** One call [tradeFrame.Printf(1, i, fg, bg, "%-4s %.2f", side, price)];
    [call_bold] is the [termbox.AttrBold] bit of [fg]. *)
Record PrintfCall := mkPrintfCall {
  call_x : Z;
  call_y : Z;
  call_fg : Attribute;
  call_bold : bool;
  call_bg : Attribute;
  call_side : string;
  call_price : Q
}.

Definition tradeColor (message : Message) : Attribute :=
  if String.eqb (Side message) "sell" then ColorRed else ColorGreen.

(** The loop of [DrawTrades]:
    [for i, j := 1, len(trades)-1; j >= 0 && i < tradeFrame.h; i, j = i+1, j-1]. *)
Fixpoint tradeRowsFrom (height i : Z) (newestFirst : list Message)
  : list PrintfCall :=
  match newestFirst with
  | [] => []
  | message :: older =>
    if i <? height
    then mkPrintfCall 1 i (tradeColor message) true ColorDefault
                      (Side message) (Price message)
         :: tradeRowsFrom height (i + 1) older
    else []
  end.

Definition tradeRows (tradeFrame : Frame) (trades : list Message)
  : list PrintfCall :=
  tradeRowsFrom (h tradeFrame) 1 (rev trades).

(** The third frame of [Draw]. *)
Definition tradeFrame (volumeWidth tradeWidth width height : Z) : Frame :=
  mkFrame (volumeWidth + candleWidth volumeWidth tradeWidth width + 2) 1
          tradeWidth (height - 2).

(** ** The header *)

(** [strings.HasSuffix]. *)
Definition HasSuffix (s suffix : string) : bool :=
  (String.length suffix <=? String.length s)%nat &&
  String.eqb (substring (String.length s - String.length suffix)
                        (String.length suffix) s)
             suffix.

(** [shortDuration], on the string [d.String()]. *)
Definition shortDuration (s : string) : string :=
  let s := if HasSuffix s "m0s"
           then substring 0 (String.length s - 2) s else s in
  let s := if HasSuffix s "h0m"
           then substring 0 (String.length s - 2) s else s in
  s.

(** ** The event loop *)

(** The events of [termbox.PollEvent] that [main] tells apart: a key, a
    resize, anything else. *)
Inductive TermboxEvent :=
| EventKey (key : Z)
| EventResize
| EventOther.

Definition KeyEsc : Z := 27.

(** What the [select] of [main] receives next: a message or an event. *)
Inductive Input :=
| Received (message : Message)
| Polled (ev : TermboxEvent).

(** The loop of [main] over what its two channels deliver, in the order the
    [select] takes it: the states handed to [Draw], the last state, and
    whether the loop was left by [break]. *)
Fixpoint eventLoop (candleSize : Z) (st : State) (inputs : list Input)
  : list State * State * bool :=
  match inputs with
  | [] => ([], st, false)
  | Received message :: rest =>
    let st := ProcessMessage candleSize message st in
    let '(draws, final, exited) := eventLoop candleSize st rest in
    (st :: draws, final, exited)
  | Polled (EventKey key) :: rest =>
    if key =? KeyEsc then ([], st, true) else eventLoop candleSize st rest
  | Polled EventResize :: rest =>
    let '(draws, final, exited) := eventLoop candleSize st rest in
    (st :: draws, final, exited)
  | Polled EventOther :: rest => eventLoop candleSize st rest
  end.

(** [main]: the first [Draw] of the empty state, then the loop. *)
Definition main (candleSize : Z) (inputs : list Input)
  : list State * State * bool :=
  let '(draws, final, exited) := eventLoop candleSize initial inputs in
  (initial :: draws, final, exited).

(** ** Measures used in the statements *)

Definition totalTrades (bs : list Bucket) : Z :=
  fold_right (fun b total => Trades b + total) 0 bs.

(** The number of trades whose window differs from the previous trade's. *)
Fixpoint windowChanges (candleSize : Z) (ms : list Message) : nat :=
  match ms with
  | [] => O
  | m :: rest =>
    match rest with
    | [] => O
    | m' :: _ =>
      ((if (windowStart candleSize m =? windowStart candleSize m')%Z
        then 0 else 1)
       + windowChanges candleSize rest)%nat
    end
  end.

(** The messages [Connect] puts on the channel. *)
Fixpoint sends (actions : list Action) : list Message :=
  match actions with
  | [] => []
  | Send message :: rest => message :: sends rest
  | _ :: rest => sends rest
  end.

Definition forwarded (reads : list ReadResult) : list Message :=
  flat_map (fun r => match r with
                     | ReadErr => []
                     | ReadOk message =>
                       if (String.length (Side message) =? 0)%nat
                       then [] else [message]
                     end) reads.

(** The read failures since the last forwarded message. *)
Fixpoint trailingFailures (reads : list ReadResult) (sofar : nat) : nat :=
  match reads with
  | [] => sofar
  | ReadErr :: rest => trailingFailures rest (S sofar)
  | ReadOk message :: rest =>
    if (String.length (Side message) =? 0)%nat
    then trailingFailures rest sofar
    else trailingFailures rest O
  end.

(** The messages and the first exit key of a sequence of inputs. *)
Fixpoint receivedBeforeEsc (inputs : list Input) : list Message :=
  match inputs with
  | [] => []
  | Received message :: rest => message :: receivedBeforeEsc rest
  | Polled (EventKey key) :: rest =>
    if key =? KeyEsc then [] else receivedBeforeEsc rest
  | Polled _ :: rest => receivedBeforeEsc rest
  end.

Fixpoint redrawsBeforeEsc (inputs : list Input) : nat :=
  match inputs with
  | [] => O
  | Received _ :: rest => S (redrawsBeforeEsc rest)
  | Polled EventResize :: rest => S (redrawsBeforeEsc rest)
  | Polled (EventKey key) :: rest =>
    if key =? KeyEsc then O else redrawsBeforeEsc rest
  | Polled EventOther :: rest => redrawsBeforeEsc rest
  end.

(** The inputs for which the loop calls [Draw]. *)
Definition redraws (i : Input) : bool :=
  match i with
  | Received _ | Polled EventResize => true
  | _ => false
  end.

Definition hasEsc (inputs : list Input) : bool :=
  existsb (fun i => match i with
                    | Polled (EventKey key) => key =? KeyEsc
                    | _ => false
                    end) inputs.

(** * Properties *)

(** ** Lists built by appending *)

Lemma snoc_cases {A : Type} (l : list A) :
  l = [] \/ exists l' a, l = l' ++ [a].
Proof.
  destruct l as [|a0 t]; [now left | right].
  destruct (@exists_last A (a0 :: t)) as [l' [a E]]; [discriminate | eauto].
Qed.

Lemma modifyLast_snoc {A : Type} (f : A -> A) (l : list A) (a : A) :
  modifyLast f (l ++ [a]) = l ++ [f a].
Proof.
  induction l as [|b t IH]; [reflexivity|].
  cbn [app modifyLast]. rewrite IH.
  destruct t; reflexivity.
Qed.

Lemma Forall2_snoc {A B : Type} (R : A -> B -> Prop) l l' a b :
  Forall2 R l l' -> R a b -> Forall2 R (l ++ [a]) (l' ++ [b]).
Proof. intros H1 H2. apply Forall2_app; auto. Qed.

Lemma Forall2_snoc_inv {A B : Type} (R : A -> B -> Prop) l a l2 :
  Forall2 R (l ++ [a]) l2 ->
  exists l' b, l2 = l' ++ [b] /\ Forall2 R l l' /\ R a b.
Proof.
  intros H. apply Forall2_app_inv_l in H.
  destruct H as (l' & r & Hl & Hr & ->).
  inversion Hr as [|? b ? r' Hab Hnil]; subst.
  inversion Hnil; subst. eauto.
Qed.

(** ** [math.Min] and [math.Max] *)

Lemma math_Min_le_l x y : (math_Min x y <= x)%Q.
Proof.
  unfold math_Min. destruct (Qcompare_spec x y) as [E|L|G]; try lra.
Qed.

Lemma math_Min_le_r x y : (math_Min x y <= y)%Q.
Proof.
  unfold math_Min. destruct (Qcompare_spec x y) as [E|L|G]; lra.
Qed.

Lemma math_Max_ge_l x y : (x <= math_Max x y)%Q.
Proof.
  unfold math_Max. destruct (Qcompare_spec x y) as [E|L|G]; lra.
Qed.

Lemma math_Max_ge_r x y : (y <= math_Max x y)%Q.
Proof.
  unfold math_Max. destruct (Qcompare_spec x y) as [E|L|G]; lra.
Qed.

Lemma math_Min_cases x y : math_Min x y = x \/ math_Min x y = y.
Proof. unfold math_Min. destruct (x ?= y)%Q; auto. Qed.

Lemma math_Max_cases x y : math_Max x y = x \/ math_Max x y = y.
Proof. unfold math_Max. destruct (x ?= y)%Q; auto. Qed.

Lemma math_Min_r x y : (y <= x)%Q -> math_Min x y = y.
Proof.
  intros H. unfold math_Min.
  destruct (Qcompare_spec x y) as [E|L|G]; auto; lra.
Qed.

Lemma math_Max_r x y : (x <= y)%Q -> math_Max x y = y.
Proof.
  intros H. unfold math_Max.
  destruct (Qcompare_spec x y) as [E|L|G]; auto; lra.
Qed.

Lemma is_min_single p : is_min p [p].
Proof. split; [now left | constructor; [lra | constructor]]. Qed.

Lemma is_max_single p : is_max p [p].
Proof. split; [now left | constructor; [lra | constructor]]. Qed.

Lemma is_min_snoc x l p : is_min x l -> is_min (math_Min x p) (l ++ [p]).
Proof.
  intros [Hin Hall]. split.
  - apply in_or_app. destruct (math_Min_cases x p) as [-> | ->];
      [now left | right; now left].
  - apply Forall_app. split.
    + eapply Forall_impl; [|exact Hall]. cbn. intros y Hy.
      pose proof (math_Min_le_l x p). lra.
    + constructor; [apply math_Min_le_r | constructor].
Qed.

Lemma is_max_snoc x l p : is_max x l -> is_max (math_Max x p) (l ++ [p]).
Proof.
  intros [Hin Hall]. split.
  - apply in_or_app. destruct (math_Max_cases x p) as [-> | ->];
      [now left | right; now left].
  - apply Forall_app. split.
    + eapply Forall_impl; [|exact Hall]. cbn. intros y Hy.
      pose proof (math_Max_ge_l x p). lra.
    + constructor; [apply math_Max_ge_r | constructor].
Qed.

(** ** One step of the aggregator *)

Section AggregatorFacts.

Variable candleSize : Z.

Lemma ProcessMessage_nil m tr :
  ProcessMessage candleSize m (tr, []) = (tr ++ [m], [opened candleSize m]).
Proof.
  unfold ProcessMessage. cbn [trades buckets fst snd last].
  cbn [freshBucket Start]. rewrite Z.eqb_refl. reflexivity.
Qed.

Lemma ProcessMessage_snoc m tr bs b :
  ProcessMessage candleSize m (tr, bs ++ [b]) =
  if Start b =? windowStart candleSize m
  then (tr ++ [m], bs ++ [absorbed m b])
  else (tr ++ [m], bs ++ [b; opened candleSize m]).
Proof.
  unfold ProcessMessage. cbn [trades buckets fst snd].
  assert (E : match bs ++ [b] with
              | [] => [freshBucket candleSize m (Truncate (Time m) candleSize)]
              | _ :: _ => bs ++ [b]
              end = bs ++ [b]) by (destruct bs; reflexivity).
  rewrite E, last_last. fold (windowStart candleSize m).
  destruct (Start b =? windowStart candleSize m).
  - now rewrite !modifyLast_snoc.
  - rewrite modifyLast_snoc, <- app_assoc. reflexivity.
Qed.

Lemma run_snoc ms m :
  run candleSize (ms ++ [m]) = ProcessMessage candleSize m (run candleSize ms).
Proof. unfold run. now rewrite fold_left_app. Qed.

Lemma routed_snoc ms m :
  routed candleSize (ms ++ [m]) = routeStep candleSize (routed candleSize ms) m.
Proof. unfold routed. now rewrite fold_left_app. Qed.

Lemma routeStep_snoc gs g m :
  routeStep candleSize (gs ++ [g]) m =
  if fst g =? windowStart candleSize m
  then gs ++ [(fst g, snd g ++ [m])]
  else gs ++ [g; (windowStart candleSize m, [m])].
Proof.
  unfold routeStep. rewrite last_last.
  destruct (gs ++ [g]) eqn:E; [now destruct gs|]. rewrite <- E.
  destruct (fst g =? windowStart candleSize m).
  - now rewrite modifyLast_snoc.
  - now rewrite <- app_assoc.
Qed.

Lemma trades_run ms : trades (run candleSize ms) = ms.
Proof.
  induction ms as [|m ms IH] using rev_ind; [reflexivity|].
  rewrite run_snoc. unfold ProcessMessage at 1. cbn [trades fst].
  now rewrite IH.
Qed.

Lemma summarises_opened m :
  priceInRange m ->
  summarises (opened candleSize m) (windowStart candleSize m, [m]).
Proof.
  intros [Hlo Hhi]. unfold summarises, opened. cbn.
  rewrite math_Min_r, math_Max_r by assumption.
  repeat split; auto using is_min_single, is_max_single.
  all: try (now left); repeat constructor; lra.
Qed.

Lemma summarises_absorbed m b g :
  summarises b g ->
  summarises (absorbed m b) (fst g, snd g ++ [m]).
Proof.
  intros (Hs & Ho & Hc & Hmin & Hmax). unfold summarises, absorbed. cbn.
  rewrite map_app. cbn [map].
  repeat split; auto.
  - destruct Hmin as [Hin _]. destruct (snd g); [destruct Hin | exact Ho].
  - now rewrite last_last.
  - now apply is_min_snoc.
  - apply is_min_snoc with (p := Price m) in Hmin. apply Hmin.
  - now apply is_max_snoc.
  - apply is_max_snoc with (p := Price m) in Hmax. apply Hmax.
Qed.

Lemma run_summarises ms :
  Forall priceInRange ms ->
  Forall2 summarises (buckets (run candleSize ms)) (routed candleSize ms).
Proof.
  induction ms as [|m ms IH] using rev_ind; intros Hall.
  - constructor.
  - apply Forall_app in Hall. destruct Hall as [Hms Hm].
    inversion Hm as [|? ? Hp _]; subst. specialize (IH Hms).
    rewrite run_snoc, routed_snoc.
    destruct (run candleSize ms) as [tr bs]. cbn [buckets snd] in IH.
    destruct (snoc_cases bs) as [-> | (bs' & b & ->)].
    + inversion IH as [E|]; subst. rewrite ProcessMessage_nil. cbn.
      constructor; [now apply summarises_opened | constructor].
    + apply Forall2_snoc_inv in IH. destruct IH as (gs & g & -> & Hgs & Hbg).
      rewrite ProcessMessage_snoc, routeStep_snoc.
      assert (Es : Start b = fst g) by apply Hbg. rewrite Es.
      destruct (fst g =? windowStart candleSize m); cbn [buckets snd].
      * apply Forall2_snoc; [assumption | now apply summarises_absorbed].
      * apply Forall2_app; [assumption|].
        constructor; [assumption|].
        constructor; [now apply summarises_opened | constructor].
Qed.

Lemma routed_oneWindow ms :
  Forall (oneWindow candleSize) (routed candleSize ms).
Proof.
  induction ms as [|m ms IH] using rev_ind; [constructor|].
  rewrite routed_snoc.
  destruct (snoc_cases (routed candleSize ms)) as [E | (gs & g & E)];
    rewrite E in *.
  - constructor; [|constructor]. split; cbn; [discriminate|].
    constructor; [reflexivity | constructor].
  - rewrite routeStep_snoc. apply Forall_app in IH. destruct IH as [Hgs Hg].
    inversion Hg as [|? ? [Hne Hall] _]; subst.
    destruct (Z.eqb_spec (fst g) (windowStart candleSize m)) as [Heq | Hneq].
    + apply Forall_app. split; [assumption|].
      constructor; [|constructor]. split; cbn.
      * now destruct (snd g).
      * apply Forall_app. split; [assumption|].
        constructor; [now symmetry | constructor].
    + apply Forall_app. split; [assumption|].
      constructor; [now split|].
      constructor; [|constructor]. split; cbn; [discriminate|].
      constructor; [reflexivity | constructor].
Qed.

(** The buckets and the groups have the same windows, in the same order. *)
Lemma starts_routed ms :
  map Start (buckets (run candleSize ms)) = map fst (routed candleSize ms).
Proof.
  induction ms as [|m ms IH] using rev_ind; [reflexivity|].
  rewrite run_snoc, routed_snoc.
  destruct (run candleSize ms) as [tr bs]. cbn [buckets snd] in *.
  destruct (snoc_cases bs) as [-> | (bs' & b & ->)].
  - destruct (routed candleSize ms); [|discriminate].
    now rewrite ProcessMessage_nil.
  - destruct (snoc_cases (routed candleSize ms)) as [E | (gs & g & E)];
      rewrite E in *.
    + now destruct bs'.
    + rewrite !map_app in IH. apply app_inj_tail in IH.
      destruct IH as [IH Hbg]. cbn in Hbg.
      rewrite ProcessMessage_snoc, routeStep_snoc, Hbg.
      destruct (fst g =? windowStart candleSize m); cbn [buckets snd];
        rewrite !map_app, IH; cbn; now rewrite ?Hbg.
Qed.

(** Every trade is routed to exactly one group, in arrival order. *)
Lemma routed_concat ms :
  List.concat (map snd (routed candleSize ms)) = ms.
Proof.
  induction ms as [|m ms IH] using rev_ind; [reflexivity|].
  rewrite routed_snoc. rewrite <- IH at 2.
  destruct (snoc_cases (routed candleSize ms)) as [-> | (gs & g & ->)].
  - reflexivity.
  - rewrite routeStep_snoc.
    destruct (fst g =? windowStart candleSize m);
      rewrite !map_app, !concat_app; cbn; rewrite ?app_nil_r, <- ?app_assoc;
      reflexivity.
Qed.

End AggregatorFacts.

(** ** Sorted lists built by appending *)

Lemma StronglySorted_snoc_inv {A : Type} (R : A -> A -> Prop) l a :
  StronglySorted R (l ++ [a]) ->
  StronglySorted R l /\ Forall (fun y => R y a) l.
Proof.
  induction l as [|b t IH]; cbn; intros H.
  - split; constructor.
  - apply StronglySorted_inv in H. destruct H as [Ht Hb].
    destruct (IH Ht) as [IH1 IH2].
    apply Forall_app in Hb. destruct Hb as [Hb1 Hb2].
    inversion Hb2; subst.
    split; constructor; auto.
Qed.

Lemma StronglySorted_snoc {A : Type} (R : A -> A -> Prop) l a :
  StronglySorted R l -> Forall (fun y => R y a) l ->
  StronglySorted R (l ++ [a]).
Proof.
  induction l as [|b t IH]; cbn; intros Hs Ha.
  - repeat constructor.
  - apply StronglySorted_inv in Hs. destruct Hs as [Ht Hb].
    inversion Ha; subst.
    constructor; [auto|]. apply Forall_app. split; [assumption|].
    repeat constructor. assumption.
Qed.

Lemma StronglySorted_app_l {A : Type} (R : A -> A -> Prop) l l' :
  StronglySorted R (l ++ l') -> StronglySorted R l.
Proof.
  induction l as [|b t IH]; cbn; intros H; [constructor|].
  apply StronglySorted_inv in H. destruct H as [Ht Hb].
  apply Forall_app in Hb. constructor; [auto | apply Hb].
Qed.

(** ** Truncation of timestamps *)

Lemma Truncate_floor t d : 0 < d -> Truncate t d = t / d * d.
Proof.
  intros Hd. unfold Truncate.
  destruct (Z.leb_spec d 0); [lia|].
  pose proof (Z.div_mod t d). lia.
Qed.

Lemma Truncate_mono t t' d : t <= t' -> Truncate t d <= Truncate t' d.
Proof.
  intros Ht. unfold Truncate. destruct (Z.leb_spec d 0); [assumption|].
  pose proof (Z.div_le_mono t t' d ltac:(lia) Ht).
  pose proof (Z.div_mod t d). pose proof (Z.div_mod t' d). nia.
Qed.

(** ** First-occurrence lists *)

Lemma distinct_snoc l k :
  distinct (l ++ [k]) =
  if existsb (Z.eqb k) (distinct l) then distinct l else distinct l ++ [k].
Proof. unfold distinct. now rewrite fold_left_app. Qed.

Lemma distinct_In l k : In k (distinct l) <-> In k l.
Proof.
  revert k. induction l as [|a l IH] using rev_ind; intros k; [reflexivity|].
  rewrite distinct_snoc.
  destruct (existsb (Z.eqb a) (distinct l)) eqn:E.
  - apply existsb_exists in E. destruct E as (a' & Ha' & Heq).
    apply Z.eqb_eq in Heq. subst a'.
    rewrite in_app_iff, IH. cbn. split; [tauto|].
    intros [H | [<- | []]]; [assumption | now apply IH].
  - rewrite !in_app_iff, IH. reflexivity.
Qed.

Lemma distinct_NoDup l : NoDup (distinct l).
Proof.
  induction l as [|a l IH] using rev_ind; [constructor|].
  rewrite distinct_snoc.
  destruct (existsb (Z.eqb a) (distinct l)) eqn:E; [assumption|].
  assert (Ha : ~ In a (distinct l)).
  { intros Hin. assert (existsb (Z.eqb a) (distinct l) = true); [|congruence].
    apply existsb_exists. exists a. split; [assumption | apply Z.eqb_refl]. }
  clear E. induction IH as [|b t Hb Ht IHt]; cbn.
  - repeat constructor. intros [].
  - constructor.
    + rewrite in_app_iff. cbn in *. intuition.
    + apply IHt. cbn in Ha. tauto.
Qed.

Lemma existsb_eqb_In k l : existsb (Z.eqb k) l = true <-> In k l.
Proof.
  rewrite existsb_exists. split.
  - intros (a & Ha & E). apply Z.eqb_eq in E. now subst.
  - intros H. exists k. split; [assumption | apply Z.eqb_refl].
Qed.

(** ** The bucket sequence, step by step *)

Lemma wrap64_small z : - 2 ^ 63 <= z < 2 ^ 63 -> wrap64 z = z.
Proof.
  intros H. unfold wrap64. rewrite Z.mod_small; lia.
Qed.

Section BucketSequence.

Variable candleSize : Z.

(** What one more trade does to the bucket sequence. *)
Lemma step_shape ms m :
  let bs := buckets (run candleSize ms) in
  let bs' := buckets (run candleSize (ms ++ [m])) in
  (bs = [] /\ bs' = [opened candleSize m]) \/
  (exists old b, bs = old ++ [b] /\
     ((Start b = windowStart candleSize m /\ bs' = old ++ [absorbed m b]) \/
      (Start b <> windowStart candleSize m /\
       bs' = old ++ [b; opened candleSize m]))).
Proof.
  cbn zeta. rewrite run_snoc.
  destruct (run candleSize ms) as [tr bs]. cbn [buckets snd].
  destruct (snoc_cases bs) as [-> | (old & b & ->)].
  - left. now rewrite ProcessMessage_nil.
  - right. exists old, b. split; [reflexivity|].
    rewrite ProcessMessage_snoc.
    destruct (Z.eqb_spec (Start b) (windowStart candleSize m)); auto.
Qed.

(** Induction over the states [main] goes through. *)
Lemma buckets_ind (P : list Message -> list Bucket -> Prop) :
  P [] [] ->
  (forall ms m,
      buckets (run candleSize ms) = [] -> P ms [] ->
      P (ms ++ [m]) [opened candleSize m]) ->
  (forall ms m old b,
      buckets (run candleSize ms) = old ++ [b] -> P ms (old ++ [b]) ->
      Start b = windowStart candleSize m ->
      P (ms ++ [m]) (old ++ [absorbed m b])) ->
  (forall ms m old b,
      buckets (run candleSize ms) = old ++ [b] -> P ms (old ++ [b]) ->
      Start b <> windowStart candleSize m ->
      P (ms ++ [m]) (old ++ [b; opened candleSize m])) ->
  forall ms, P ms (buckets (run candleSize ms)).
Proof.
  intros Hnil Hfirst Hsame Hnew ms.
  induction ms as [|m ms IH] using rev_ind; [exact Hnil|].
  destruct (step_shape ms m)
    as [[E ->] | (old & b & E & [[Hs ->] | [Hs ->]])];
    rewrite E in IH; auto.
Qed.

Lemma buckets_nil_iff ms : buckets (run candleSize ms) = [] <-> ms = [].
Proof.
  split; [|now intros ->].
  destruct (snoc_cases ms) as [-> | (ms' & m & ->)]; [reflexivity|].
  destruct (step_shape ms' m)
    as [[_ ->] | (old & b & _ & [[_ ->] | [_ ->]])];
    intros H; try discriminate; now destruct old.
Qed.

(** The last bucket is the window of the last trade. *)
Lemma last_bucket_window ms m :
  exists old b, buckets (run candleSize (ms ++ [m])) = old ++ [b] /\
                Start b = windowStart candleSize m.
Proof.
  destruct (step_shape ms m)
    as [[_ ->] | (old & b & _ & [[Hs ->] | [Hs ->]])].
  - now exists [], (opened candleSize m).
  - now exists old, (absorbed m b).
  - exists (old ++ [b]), (opened candleSize m).
    now rewrite <- app_assoc.
Qed.

(** Trade counts, while the counter cannot wrap. *)
Lemma trades_bounds ms :
  sliceSized ms ->
  Forall (fun b => 1 <= Trades b <= Z.of_nat (List.length ms))
         (buckets (run candleSize ms)).
Proof.
  unfold sliceSized.
  pattern ms, (buckets (run candleSize ms)). apply buckets_ind; clear ms.
  - constructor.
  - intros ms m _ _ Hlen. rewrite length_app in *. cbn in *.
    repeat constructor; cbn; lia.
  - intros ms m old b _ IH Hs Hlen. rewrite length_app in *. cbn in *.
    specialize (IH ltac:(lia)). apply Forall_app in IH.
    destruct IH as [Hold Hb]. inversion Hb as [|? ? Hb' _]; subst.
    apply Forall_app. split.
    + eapply Forall_impl; [|exact Hold]. cbn. lia.
    + repeat constructor; cbn; rewrite wrap64_small; lia.
  - intros ms m old b _ IH Hs Hlen. rewrite length_app in *. cbn in *.
    specialize (IH ltac:(lia)).
    replace (old ++ [b; opened candleSize m])
      with ((old ++ [b]) ++ [opened candleSize m])
      by (now rewrite <- app_assoc).
    apply Forall_app. split.
    + eapply Forall_impl; [|exact IH]. cbn. lia.
    + repeat constructor; cbn; lia.
Qed.

(** The sentinels bound every bucket, whatever the prices. *)
Lemma sentinel_bounds ms :
  Forall (fun b => (Min b <= MaxFloat32)%Q /\ (0 <= Max b)%Q)
         (buckets (run candleSize ms)).
Proof.
  pattern ms, (buckets (run candleSize ms)). apply buckets_ind; clear ms.
  - constructor.
  - intros ms m _ _. repeat constructor; cbn.
    + apply math_Min_le_l.
    + apply math_Max_ge_l.
  - intros ms m old b _ IH _. apply Forall_app in IH.
    destruct IH as [Hold Hb]. inversion Hb as [|? ? [Hb1 Hb2] _]; subst.
    apply Forall_app. split; [assumption|].
    repeat constructor; cbn.
    + pose proof (math_Min_le_l (Min b) (Price m)). lra.
    + pose proof (math_Max_ge_l (Max b) (Price m)). lra.
  - intros ms m old b _ IH _.
    replace (old ++ [b; opened candleSize m])
      with ((old ++ [b]) ++ [opened candleSize m])
      by (now rewrite <- app_assoc).
    apply Forall_app. split; [assumption|].
    repeat constructor; cbn.
    + apply math_Min_le_l.
    + apply math_Max_ge_l.
Qed.

Lemma last_bucket_of ms old b :
  buckets (run candleSize ms) = old ++ [b] ->
  exists ms' m', ms = ms' ++ [m'] /\ Start b = windowStart candleSize m'.
Proof.
  intros E. destruct (snoc_cases ms) as [-> | (ms' & m' & ->)].
  - now destruct old.
  - exists ms', m'. split; [reflexivity|].
    destruct (last_bucket_window ms' m') as (old' & b' & E' & Hs).
    rewrite E in E'. apply app_inj_tail in E'. now destruct E' as [_ ->].
Qed.

Lemma times_le_last ms m :
  nonDecreasing (ms ++ [m]) -> Forall (fun x => Time x <= Time m) ms.
Proof.
  unfold nonDecreasing. rewrite map_app. cbn [map]. intros H.
  apply StronglySorted_snoc_inv in H. destruct H as [_ H].
  now rewrite Forall_map in H.
Qed.

Lemma nonDecreasing_snoc_inv ms m : nonDecreasing (ms ++ [m]) -> nonDecreasing ms.
Proof.
  unfold nonDecreasing. rewrite map_app. apply StronglySorted_app_l.
Qed.

Lemma last_start_le ms m old b :
  buckets (run candleSize ms) = old ++ [b] ->
  nonDecreasing (ms ++ [m]) ->
  Start b <= windowStart candleSize m.
Proof.
  intros E Hs. destruct (last_bucket_of _ _ _ E) as (ms' & m' & -> & ->).
  apply times_le_last in Hs. apply Forall_app in Hs. destruct Hs as [_ Hs].
  inversion Hs; subst. now apply Truncate_mono.
Qed.

Lemma starts_increasing ms :
  nonDecreasing ms -> strictlyIncreasing (buckets (run candleSize ms)).
Proof.
  unfold strictlyIncreasing.
  pattern ms, (buckets (run candleSize ms)). apply buckets_ind; clear ms.
  - constructor.
  - intros. repeat constructor.
  - intros ms m old b E IH Hs Hsorted.
    apply nonDecreasing_snoc_inv in Hsorted. specialize (IH Hsorted).
    rewrite map_app in *. exact IH.
  - intros ms m old b E IH Hs Hsorted.
    pose proof (last_start_le _ _ _ _ E Hsorted) as Hle.
    apply nonDecreasing_snoc_inv in Hsorted. specialize (IH Hsorted).
    replace (old ++ [b; opened candleSize m])
      with ((old ++ [b]) ++ [opened candleSize m])
      by (now rewrite <- app_assoc).
    rewrite map_app. cbn [map opened Start].
    apply StronglySorted_snoc; [assumption|].
    rewrite map_app in *. cbn [map] in *.
    apply StronglySorted_snoc_inv in IH. destruct IH as [_ IH].
    apply Forall_app. split.
    + eapply Forall_impl; [|exact IH]. cbn. lia.
    + repeat constructor. lia.
Qed.

Lemma windowIndexes_snoc ms m :
  windowIndexes candleSize (ms ++ [m]) =
  windowIndexes candleSize ms ++ [Time m / candleSize].
Proof. unfold windowIndexes. now rewrite map_app. Qed.

Lemma starts_distinct ms :
  0 < candleSize -> nonDecreasing ms ->
  map Start (buckets (run candleSize ms)) =
  map (fun k => k * candleSize) (distinct (windowIndexes candleSize ms)).
Proof.
  intros Hd.
  pattern ms, (buckets (run candleSize ms)). apply buckets_ind; clear ms.
  - reflexivity.
  - intros ms m E _ _. apply buckets_nil_iff in E. subst ms.
    cbn. unfold windowStart. now rewrite Truncate_floor.
  - intros ms m old b E IH Hs Hsorted.
    specialize (IH (nonDecreasing_snoc_inv _ _ Hsorted)).
    rewrite windowIndexes_snoc, distinct_snoc.
    destruct (last_bucket_of _ _ _ E) as (ms' & m' & -> & Hb).
    assert (Hk : Time m / candleSize = Time m' / candleSize).
    { unfold windowStart in *. rewrite !Truncate_floor in * by assumption.
      nia. }
    assert (Hin : existsb (Z.eqb (Time m / candleSize))
              (distinct (windowIndexes candleSize (ms' ++ [m']))) = true).
    { apply existsb_eqb_In, distinct_In.
      rewrite windowIndexes_snoc, in_app_iff. right. left. now rewrite Hk. }
    rewrite Hin, <- IH, !map_app. reflexivity.
  - intros ms m old b E IH Hs Hsorted.
    pose proof (last_start_le _ _ _ _ E Hsorted) as Hle.
    pose proof (times_le_last _ _ Hsorted) as Hall.
    apply nonDecreasing_snoc_inv in Hsorted. specialize (IH Hsorted).
    rewrite windowIndexes_snoc, distinct_snoc.
    destruct (last_bucket_of _ _ _ E) as (ms' & m' & -> & Hb).
    pose proof (times_le_last _ _ Hsorted) as Hall'.
    assert (Hlt : Time m' / candleSize < Time m / candleSize).
    { unfold windowStart in *. rewrite !Truncate_floor in * by assumption.
      nia. }
    assert (Hout : existsb (Z.eqb (Time m / candleSize))
              (distinct (windowIndexes candleSize (ms' ++ [m']))) = false).
    { apply not_true_iff_false. rewrite existsb_eqb_In, distinct_In.
      unfold windowIndexes. rewrite in_map_iff.
      intros (x & Hx & Hin). apply in_app_iff in Hin.
      assert (Time x <= Time m').
      { destruct Hin as [Hin | [<- | []]]; [|lia].
        rewrite Forall_forall in Hall'. now apply Hall'. }
      pose proof (Z.div_le_mono (Time x) (Time m') candleSize Hd ltac:(lia)).
      lia. }
    rewrite Hout.
    replace (old ++ [b; opened candleSize m])
      with ((old ++ [b]) ++ [opened candleSize m])
      by (now rewrite <- app_assoc).
    rewrite (map_app Start), IH, (map_app (fun k => k * candleSize)).
    cbn. unfold windowStart. now rewrite Truncate_floor.
Qed.

(** Nothing but the last bucket changes, and no bucket leaves its place. *)
Lemma step_append_only ms m :
  let bs := buckets (run candleSize ms) in
  let bs' := buckets (run candleSize (ms ++ [m])) in
  (exists tail, bs' = removelast bs ++ tail) /\
  (exists tail, map Start bs' = map Start bs ++ tail).
Proof.
  cbn zeta.
  destruct (step_shape ms m)
    as [[-> ->] | (old & b & -> & [[Hs ->] | [Hs ->]])].
  - split; eexists; reflexivity.
  - rewrite removelast_last. split.
    + eexists; reflexivity.
    + exists []. now rewrite !map_app, app_nil_r.
  - rewrite removelast_last. split.
    + eexists; reflexivity.
    + exists [windowStart candleSize m].
      rewrite !map_app, <- app_assoc. reflexivity.
Qed.

(** A bucket's low never passes its high. *)
Lemma min_le_max ms :
  Forall (fun b => (Min b <= Max b)%Q) (buckets (run candleSize ms)).
Proof.
  pattern ms, (buckets (run candleSize ms)). apply buckets_ind; clear ms.
  - constructor.
  - intros ms m _ _. repeat constructor. cbn.
    pose proof (math_Min_le_r MaxFloat32 (Price m)).
    pose proof (math_Max_ge_r 0 (Price m)). lra.
  - intros ms m old b _ IH _. apply Forall_app in IH.
    destruct IH as [Hold _]. apply Forall_app. split; [assumption|].
    repeat constructor. cbn.
    pose proof (math_Min_le_r (Min b) (Price m)).
    pose proof (math_Max_ge_r (Max b) (Price m)). lra.
  - intros ms m old b _ IH _.
    replace (old ++ [b; opened candleSize m])
      with ((old ++ [b]) ++ [opened candleSize m])
      by (now rewrite <- app_assoc).
    apply Forall_app. split; [assumption|].
    repeat constructor. cbn.
    pose proof (math_Min_le_r MaxFloat32 (Price m)).
    pose proof (math_Max_ge_r 0 (Price m)). lra.
Qed.

End BucketSequence.

(** ** Running minimum and maximum *)

Lemma fold_math_Min_is_min l a : is_min (fold_left math_Min l a) (a :: l).
Proof.
  revert a. induction l as [|y t IH]; intros a; [apply is_min_single|].
  cbn [fold_left]. destruct (IH (math_Min a y)) as [Hin Hall].
  inversion Hall as [|? ? Hhd Htl]; subst.
  pose proof (math_Min_le_l a y). pose proof (math_Min_le_r a y).
  split.
  - destruct Hin as [<- | Hin]; [|now right; right].
    destruct (math_Min_cases a y) as [-> | ->]; [now left | right; now left].
  - repeat constructor; [lra | lra | assumption].
Qed.

Lemma fold_math_Max_is_max l a : is_max (fold_left math_Max l a) (a :: l).
Proof.
  revert a. induction l as [|y t IH]; intros a; [apply is_max_single|].
  cbn [fold_left]. destruct (IH (math_Max a y)) as [Hin Hall].
  inversion Hall as [|? ? Hhd Htl]; subst.
  pose proof (math_Max_ge_l a y). pose proof (math_Max_ge_r a y).
  split.
  - destruct Hin as [<- | Hin]; [|now right; right].
    destruct (math_Max_cases a y) as [-> | ->]; [now left | right; now left].
  - repeat constructor; [lra | lra | assumption].
Qed.

(** Started from a sentinel that no element passes, the fold is the
    minimum (maximum) of the list itself. *)
Lemma fold_math_Min_sentinel l a :
  l <> [] -> Forall (fun y => (y <= a)%Q) l ->
  is_min (fold_left math_Min l a) l.
Proof.
  destruct l as [|y t]; [congruence|]. intros _ Hall.
  inversion Hall; subst. cbn [fold_left]. rewrite math_Min_r by assumption.
  apply fold_math_Min_is_min.
Qed.

Lemma fold_math_Max_sentinel l a :
  l <> [] -> Forall (fun y => (a <= y)%Q) l ->
  is_max (fold_left math_Max l a) l.
Proof.
  destruct l as [|y t]; [congruence|]. intros _ Hall.
  inversion Hall; subst. cbn [fold_left]. rewrite math_Max_r by assumption.
  apply fold_math_Max_is_max.
Qed.

(** ** Scaling bounds *)

Lemma rawBounds_folds bs :
  rawBounds bs = (fold_left math_Min (map Min bs) MaxFloat32,
                  fold_left math_Max (map Max bs) 0%Q).
Proof.
  unfold rawBounds. generalize MaxFloat32, 0%Q.
  induction bs as [|b t IH]; intros lo hi; [reflexivity|].
  cbn [fold_left map fst snd]. apply IH.
Qed.

Lemma volumeUpperBound_fold bs :
  volumeUpperBound bs =
  fold_left math_Max (map (fun b => inject_Z (Trades b)) bs) 0%Q.
Proof.
  unfold volumeUpperBound. generalize 0%Q.
  induction bs as [|b t IH]; intros a; [reflexivity|].
  cbn [fold_left map]. apply IH.
Qed.

Lemma volumeUpperBound_positive bs :
  bs <> [] -> Forall (fun b => 1 <= Trades b) bs ->
  (1 <= volumeUpperBound bs)%Q.
Proof.
  intros Hne Hall. rewrite volumeUpperBound_fold.
  destruct (fold_math_Max_is_max
              (map (fun b => inject_Z (Trades b)) bs) 0%Q) as [_ Hmax].
  destruct bs as [|b t]; [congruence|].
  inversion Hall as [|? ? Hb _]; subst.
  rewrite Forall_forall in Hmax.
  specialize (Hmax (inject_Z (Trades b))). cbn beta in Hmax.
  eapply Qle_trans; [|apply Hmax; right; now left].
  change 1%Q with (inject_Z 1). rewrite <- Zle_Qle. assumption.
Qed.

Lemma collect_nil {A : Type} (draw : A -> option (list Cell)) :
  collect draw [] = Some [].
Proof. reflexivity. Qed.

Lemma collect_total {A : Type} (draw : A -> option (list Cell)) l :
  Forall (fun a => exists cells, draw a = Some cells) l ->
  exists cells, collect draw l = Some cells.
Proof.
  induction 1 as [|a t [c Hc] _ [cs IH]]; cbn.
  - eauto.
  - rewrite Hc, IH. eauto.
Qed.

Lemma int_of_float_inject q n : (q == inject_Z n)%Q -> int_of_float q = n.
Proof.
  unfold Qeq, int_of_float. cbn. intros H.
  rewrite Z.mul_1_r in H. rewrite H. apply Z.quot_mul. discriminate.
Qed.

Lemma fdiv_nonzero a b : ~ (b == 0)%Q -> fdiv a b = Some (a / b)%Q.
Proof.
  intros H. unfold fdiv. destruct (Qeq_bool b 0) eqn:E; [|reflexivity].
  apply Qeq_bool_iff in E. contradiction.
Qed.

(** ** The read loop *)

Lemma readLoop_app c rs1 rs2 :
  readLoop c (rs1 ++ rs2) =
  (fst (readLoop (fst (readLoop c rs1)) rs2),
   snd (readLoop c rs1) ++ snd (readLoop (fst (readLoop c rs1)) rs2)).
Proof.
  revert c. induction rs1 as [|r rs1 IH]; intros c; cbn [app readLoop fst snd].
  - now destruct (readLoop c rs2).
  - destruct r as [|m].
    + rewrite IH. destruct (readLoop (wrap64 (c + 1)) rs1) as [c1 a1].
      reflexivity.
    + destruct (String.length (Side m) =? 0)%nat; [apply IH|].
      rewrite IH. destruct (readLoop 0 rs1) as [c1 a1]. reflexivity.
Qed.

Lemma waits_app a1 a2 : waits (a1 ++ a2) = waits a1 ++ waits a2.
Proof.
  induction a1 as [|a t IH]; [reflexivity|].
  destruct a; cbn; now rewrite IH.
Qed.

Lemma readLoop_skipped c rs : Forall skipped rs -> readLoop c rs = (c, []).
Proof.
  induction 1 as [|r t Hr _ IH]; [reflexivity|].
  destruct r as [|m]; [destruct Hr|]. cbn in Hr. cbn [readLoop].
  now rewrite Hr.
Qed.

Lemma readLoop_forwarded c m :
  Side m <> EmptyString -> readLoop c [ReadOk m] = (0, [Send m]).
Proof.
  intros H. cbn. destruct (Side m); [congruence | reflexivity].
Qed.

Lemma backoff_exact n :
  (n <= maxExactBackoff)%nat ->
  backoff (Z.of_nat n) = Z.of_nat n * Z.of_nat n * Second.
Proof.
  unfold maxExactBackoff, backoff, Second. intros H.
  assert (0 <= Z.of_nat n <= 96038) by lia.
  assert (0 <= Z.of_nat n * Z.of_nat n <= 96038 * 96038) by nia.
  rewrite (wrap64_small (Z.of_nat n * Z.of_nat n)) by lia.
  apply wrap64_small. lia.
Qed.

Lemma readLoop_failures n c :
  (c + n <= maxExactBackoff)%nat ->
  readLoop (Z.of_nat c) (repeat ReadErr n) =
  (Z.of_nat (c + n), quadraticRetries (S c) n).
Proof.
  revert c. induction n as [|n IH]; intros c Hb.
  - cbn. now rewrite Nat.add_0_r.
  - cbn [repeat readLoop].
    replace (wrap64 (Z.of_nat c + 1)) with (Z.of_nat (S c)).
    + rewrite IH by lia. rewrite backoff_exact by lia.
      replace (S c + n)%nat with (c + S n)%nat by lia. reflexivity.
    + rewrite wrap64_small; unfold maxExactBackoff in Hb; lia.
Qed.

Lemma readLoop_noReset reads c :
  Forall noReset reads ->
  (c + failures reads <= maxExactBackoff)%nat ->
  readLoop (Z.of_nat c) reads =
  (Z.of_nat (c + failures reads), quadraticRetries (S c) (failures reads)).
Proof.
  intros Hall. revert c.
  induction Hall as [|r rest Hr _ IH]; intros c Hb.
  - cbn. now rewrite Nat.add_0_r.
  - destruct r as [|m].
    + change (failures (ReadErr :: rest)) with (S (failures rest)) in *.
      cbn [readLoop].
      replace (wrap64 (Z.of_nat c + 1)) with (Z.of_nat (S c))
        by (rewrite wrap64_small; unfold maxExactBackoff in Hb; lia).
      rewrite IH by lia. rewrite backoff_exact by lia.
      replace (S c + failures rest)%nat with (c + S (failures rest))%nat
        by lia.
      reflexivity.
    + change (failures (ReadOk m :: rest)) with (failures rest) in *.
      cbn in Hr. cbn [readLoop]. rewrite Hr. cbn. now apply IH.
Qed.

Lemma waits_quadraticRetries first count :
  (first <> 0)%nat ->
  waits (quadraticRetries first count) =
  map (fun i => Z.of_nat i * Z.of_nat i * Second) (seq first count).
Proof.
  revert first. induction count as [|k IH]; intros first Hf; [reflexivity|].
  cbn [seq map]. rewrite <- IH by lia.
  unfold quadraticRetries. cbn [seq flat_map app waits].
  f_equal. unfold suspension, Second. nia.
Qed.

Lemma dials_failures c rs : dials (snd (readLoop c rs)) = failures rs.
Proof.
  revert c. induction rs as [|r rs IH]; intros c; [reflexivity|].
  destruct r as [|m]; cbn [readLoop].
  - specialize (IH (wrap64 (c + 1))).
    destruct (readLoop (wrap64 (c + 1)) rs) as [c1 a1].
    unfold dials, failures in *. cbn in *. now rewrite IH.
  - destruct (String.length (Side m) =? 0)%nat.
    + rewrite IH. reflexivity.
    + specialize (IH 0). destruct (readLoop 0 rs) as [c1 a1].
      unfold dials, failures in *. cbn in *. exact IH.
Qed.

(** * The aggregator *)

Lemma ProcessMessage_single candleSize m tr b :
  ProcessMessage candleSize m (tr, [b]) =
  if Start b =? windowStart candleSize m
  then (tr ++ [m], [absorbed m b])
  else (tr ++ [m], [b; opened candleSize m]).
Proof. exact (ProcessMessage_snoc candleSize m tr [] b). Qed.

(** C1, as stated, fails: a single trade priced above [math.MaxFloat32]
    (here 2^129) opens a bucket whose [Min] is the sentinel and not the
    price, so the bucket does not carry the minimum of its trades. *)
Lemma ohlc_fails_above_sentinel :
  ~ Forall2 summarises
      (buckets (run 900 [mkMessage "buy" (inject_Z (2 ^ 129)) 0]))
      (routed 900 [mkMessage "buy" (inject_Z (2 ^ 129)) 0]).
Proof.
  intros H. inversion H as [|b g bs gs Hs _]; subst.
  destruct Hs as (_ & _ & _ & [Hin _] & _).
  destruct Hin as [E | []]. vm_compute in E. discriminate.
Qed.

(** C1 (amended): for trades priced between 0 and [math.MaxFloat32], after
    every ingestion step (every prefix of the trade sequence) each bucket
    has the window of its group of routed trades, opens at the group's
    first price, closes at its latest price, and has the least and greatest
    of the group's prices as [Min] and [Max]; the groups partition the
    trades in arrival order, each holding trades of a single window.  Four trades at 100, 102, 98, 101 in one
    window give the single bucket open=100, close=101, max=102, min=98,
    trades=4. *)
Theorem ohlc_tracks_routed_trades (candleSize : Z) :
  (forall ms n,
      Forall priceInRange ms ->
      Forall2 summarises (buckets (run candleSize (firstn n ms)))
              (routed candleSize (firstn n ms)) /\
      Forall (oneWindow candleSize) (routed candleSize (firstn n ms)) /\
      List.concat (map snd (routed candleSize (firstn n ms)))
      = firstn n ms) /\
  (forall s1 s2 s3 s4 t1 t2 t3 t4,
      Truncate t2 candleSize = Truncate t1 candleSize ->
      Truncate t3 candleSize = Truncate t1 candleSize ->
      Truncate t4 candleSize = Truncate t1 candleSize ->
      buckets (run candleSize [mkMessage s1 100 t1; mkMessage s2 102 t2;
                               mkMessage s3 98 t3; mkMessage s4 101 t4])
      = [mkBucket 100 101 102 98 4 (Truncate t1 candleSize) candleSize]).
Proof.
  split.
  - intros ms n Hall.
    split; [|split; [apply routed_oneWindow | apply routed_concat]].
    apply run_summarises.
    rewrite <- (firstn_skipn n ms) in Hall. now apply Forall_app in Hall.
  - intros s1 s2 s3 s4 t1 t2 t3 t4 H2 H3 H4.
    unfold run, initial. cbn [fold_left].
    rewrite ProcessMessage_nil.
    rewrite ProcessMessage_single.
    unfold windowStart, opened, absorbed; cbn [Start Time]. rewrite H2, Z.eqb_refl.
    rewrite ProcessMessage_single.
    unfold windowStart, opened, absorbed; cbn [Start Time]. rewrite H3, Z.eqb_refl.
    rewrite ProcessMessage_single.
    unfold windowStart, opened, absorbed; cbn [Start Time]. rewrite H4, Z.eqb_refl.
    reflexivity.
Qed.

Lemma ohlc_tracks_routed_trades_witness :
  Forall2 summarises
    (buckets (run 900 (firstn 3 [mkMessage "buy" 100 5; mkMessage "sell" 102 6;
                                 mkMessage "buy" 98 901; mkMessage "buy" 101 902])))
    (routed 900 (firstn 3 [mkMessage "buy" 100 5; mkMessage "sell" 102 6;
                           mkMessage "buy" 98 901; mkMessage "buy" 101 902]))
  /\ buckets (run 900 [mkMessage "buy" 100 5; mkMessage "sell" 102 6;
                       mkMessage "buy" 98 7; mkMessage "buy" 101 899])
     = [mkBucket 100 101 102 98 4 (Truncate 5 900) 900].
Proof.
  split.
  - apply (ohlc_tracks_routed_trades 900).
    repeat constructor; vm_compute; discriminate.
  - apply (ohlc_tracks_routed_trades 900); reflexivity.
Defined.

Lemma windows_of_groups candleSize bs gs :
  map Start bs = map fst gs ->
  Forall (oneWindow candleSize) gs ->
  Forall2 (fun b g =>
             Forall (fun m => Start b = windowStart candleSize m) (snd g))
          bs gs.
Proof.
  revert gs. induction bs as [|b bs IH]; intros [|g gs] E Hall;
    try discriminate; constructor.
  - inversion Hall as [|? ? [_ Hg] _]; subst. injection E as Eb _.
    eapply Forall_impl; [|exact Hg]. cbn. congruence.
  - inversion Hall; subst. injection E as _ E. auto.
Qed.

(** C2: with a positive candle size and non-decreasing timestamps, the
    bucket windows are the distinct values of [floor(timestamp /
    candleSize)] in the order of their first occurrence, each multiplied by
    the candle size; so there are as many buckets as distinct values; and
    the window of a bucket is [floor(timestamp / candleSize) * candleSize]
    for every trade routed into it. *)
Theorem buckets_are_distinct_windows (candleSize : Z) (ms : list Message) :
  0 < candleSize ->
  nonDecreasing ms ->
  map Start (buckets (run candleSize ms))
  = map (fun k => k * candleSize) (distinct (windowIndexes candleSize ms)) /\
  List.length (buckets (run candleSize ms))
  = List.length (distinct (windowIndexes candleSize ms)) /\
  Forall2 (fun b g =>
             Forall (fun m => Start b = Time m / candleSize * candleSize)
                    (snd g))
          (buckets (run candleSize ms)) (routed candleSize ms).
Proof.
  intros Hd Hs. pose proof (starts_distinct candleSize ms Hd Hs) as E.
  split; [exact E|]. split.
  - apply (f_equal (@List.length Z)) in E. now rewrite !length_map in E.
  - pose proof (windows_of_groups candleSize _ _
                  (starts_routed candleSize ms)
                  (routed_oneWindow candleSize ms)) as H.
    eapply Forall2_impl; [|exact H]. cbn. intros b g Hg.
    eapply Forall_impl; [|exact Hg]. cbn. intros m ->.
    unfold windowStart. now apply Truncate_floor.
Qed.

Lemma buckets_are_distinct_windows_witness :
  map Start (buckets (run 900 [mkMessage "buy" 100 5; mkMessage "sell" 102 899;
                               mkMessage "buy" 98 900; mkMessage "buy" 99 2750]))
  = [0; 900; 2700].
Proof.
  destruct (buckets_are_distinct_windows 900
              [mkMessage "buy" 100 5; mkMessage "sell" 102 899;
               mkMessage "buy" 98 900; mkMessage "buy" 99 2750])
    as [E _].
  - lia.
  - unfold nonDecreasing. cbn. repeat constructor; lia.
  - rewrite E. reflexivity.
Defined.

(** C3, as stated, fails: a trade of an earlier window arriving after one
    of a later window appends a bucket whose start is smaller than its
    predecessor's. *)
Lemma out_of_order_breaks_increasing :
  ~ strictlyIncreasing
      (buckets (run 900 [mkMessage "buy" 100 900; mkMessage "buy" 100 0])).
Proof.
  unfold strictlyIncreasing. cbn. intros H.
  apply StronglySorted_inv in H. destruct H as [_ H].
  inversion H; subst. lia.
Qed.

(** C3 (amended): while the timestamps received so far are non-decreasing
    the bucket sequence is strictly increasing by window start; and for
    every trade sequence, one more trade leaves every bucket but the last
    untouched and in place, and keeps the windows of all existing buckets
    in order as a prefix of the new sequence. *)
Theorem bucket_sequence_discipline (candleSize : Z) (ms : list Message)
  (m : Message) :
  (forall later, nonDecreasing (ms ++ later) ->
                 strictlyIncreasing (buckets (run candleSize ms))) /\
  (exists tail, buckets (run candleSize (ms ++ [m]))
                = removelast (buckets (run candleSize ms)) ++ tail) /\
  (exists tail, map Start (buckets (run candleSize (ms ++ [m])))
                = map Start (buckets (run candleSize ms)) ++ tail).
Proof.
  split; [|apply step_append_only].
  intros later H. apply starts_increasing.
  unfold nonDecreasing in *. rewrite map_app in H.
  now apply StronglySorted_app_l in H.
Qed.

Lemma bucket_sequence_discipline_witness :
  strictlyIncreasing
    (buckets (run 900 [mkMessage "buy" 100 5; mkMessage "sell" 102 950])).
Proof.
  apply (bucket_sequence_discipline 900
           [mkMessage "buy" 100 5; mkMessage "sell" 102 950]
           (mkMessage "buy" 98 2000))
    with (later := [mkMessage "buy" 98 2000]).
  unfold nonDecreasing. cbn. repeat constructor; lia.
Defined.

(** * The renderer *)

(** The trades of the counterexample to C4: two in the first window, one in
    the next. *)
Lemma two_windows :
  buckets (run 900 [mkMessage "buy" 300 0; mkMessage "sell" 10 1;
                    mkMessage "buy" 200 900])
  = [mkBucket 300 10 300 10 2 0 900; mkBucket 200 200 200 200 1 900 900].
Proof. reflexivity. Qed.

(** C4, as stated, fails: in a panel of height 2 only the newest bucket
    gets a row, yet the bounds and the volume maximum come from the older
    bucket, which has no row. *)
Lemma bounds_ignore_visibility :
  let f := mkFrame 0 1 11 2 in
  let bs := buckets (run 900 [mkMessage "buy" 300 0; mkMessage "sell" 10 1;
                              mkMessage "buy" 200 900]) in
  bs <> [] /\
  visible f bs = [mkBucket 200 200 200 200 1 900 900] /\
  ~ is_min (fst (rawBounds bs)) (map Min (visible f bs)) /\
  ~ is_max (snd (rawBounds bs)) (map Max (visible f bs)) /\
  ~ is_max (volumeUpperBound bs)
      (map (fun b => inject_Z (Trades b)) (visible f bs)).
Proof.
  cbn zeta. rewrite two_windows.
  split; [discriminate|]. split; [reflexivity|].
  repeat split; intros [Hin _]; vm_compute in Hin;
    destruct Hin as [E | []]; discriminate.
Qed.

(** C4 (amended): for every render of a non-empty bucket sequence built by
    [ProcessMessage], the bounds are taken over all the buckets of the
    sequence, whether they get a row or not: before padding, the lower
    bound is the least [Min], the upper bound the greatest [Max], and the
    volume maximum the greatest trade count of the whole sequence. *)
Theorem bounds_span_all_buckets (candleSize : Z) (ms : list Message) :
  sliceSized ms ->
  buckets (run candleSize ms) <> [] ->
  let bs := buckets (run candleSize ms) in
  is_min (fst (rawBounds bs)) (map Min bs) /\
  is_max (snd (rawBounds bs)) (map Max bs) /\
  is_max (volumeUpperBound bs) (map (fun b => inject_Z (Trades b)) bs).
Proof.
  intros Hlen Hne bs. subst bs.
  pose proof (sentinel_bounds candleSize ms) as Hs.
  pose proof (trades_bounds candleSize ms Hlen) as Ht.
  rewrite rawBounds_folds, volumeUpperBound_fold. cbn [fst snd].
  set (bs := buckets (run candleSize ms)) in *.
  assert (Hmap : forall (g : Bucket -> Q), map g bs <> [])
    by (intros g E; apply map_eq_nil in E; contradiction).
  repeat split.
  - apply fold_math_Min_sentinel; [apply Hmap|].
    rewrite Forall_map. eapply Forall_impl; [|exact Hs]. cbn. tauto.
  - apply fold_math_Min_sentinel; [apply Hmap|].
    rewrite Forall_map. eapply Forall_impl; [|exact Hs]. cbn. tauto.
  - apply fold_math_Max_sentinel; [apply Hmap|].
    rewrite Forall_map. eapply Forall_impl; [|exact Hs]. cbn. tauto.
  - apply fold_math_Max_sentinel; [apply Hmap|].
    rewrite Forall_map. eapply Forall_impl; [|exact Hs]. cbn. tauto.
  - apply fold_math_Max_sentinel; [apply Hmap|].
    rewrite Forall_map. eapply Forall_impl; [|exact Ht]. cbn.
    intros b Hb. change 0%Q with (inject_Z 0). rewrite <- Zle_Qle. lia.
  - apply fold_math_Max_sentinel; [apply Hmap|].
    rewrite Forall_map. eapply Forall_impl; [|exact Ht]. cbn.
    intros b Hb. change 0%Q with (inject_Z 0). rewrite <- Zle_Qle. lia.
Qed.

Lemma bounds_span_all_buckets_witness :
  let bs := buckets (run 900 [mkMessage "buy" 300 0; mkMessage "sell" 10 1;
                              mkMessage "buy" 200 900]) in
  is_min (fst (rawBounds bs)) (map Min bs) /\
  is_max (snd (rawBounds bs)) (map Max bs) /\
  is_max (volumeUpperBound bs) (map (fun b => inject_Z (Trades b)) bs).
Proof.
  apply (bounds_span_all_buckets 900).
  - unfold sliceSized. cbn. lia.
  - rewrite two_windows. discriminate.
Defined.

(** C7: whenever the price spread used for scaling is strictly positive,
    the column of the lower bound is 1 and the column of the upper bound is
    the panel width minus 1, exactly, also once converted to a cell
    index. *)
Theorem column_hits_panel_edges (f : Frame) (bs : list Bucket) :
  (0 < priceSpread bs)%Q ->
  exists first final,
    column f (lowerBound bs) (priceSpread bs) (lowerBound bs) = Some first /\
    column f (lowerBound bs) (priceSpread bs) (upperBound bs) = Some final /\
    (first == 1)%Q /\ (final == inject_Z (w f - 1))%Q /\
    int_of_float first = 1 /\ int_of_float final = w f - 1.
Proof.
  intros Hpos. unfold column.
  rewrite !fdiv_nonzero by lra.
  do 2 eexists. split; [reflexivity|]. split; [reflexivity|].
  assert (E1 : (1 + (lowerBound bs - lowerBound bs) / priceSpread bs
                    * inject_Z (w f - 2) == 1)%Q).
  { field. lra. }
  assert (E2 : (1 + (upperBound bs - lowerBound bs) / priceSpread bs
                    * inject_Z (w f - 2) == inject_Z (w f - 1))%Q).
  { fold (priceSpread bs).
    replace (w f - 1) with (1 + (w f - 2)) by lia.
    rewrite inject_Z_plus. field. lra. }
  repeat split; try assumption.
  - apply int_of_float_inject. exact E1.
  - apply int_of_float_inject. exact E2.
Qed.

Lemma column_hits_panel_edges_witness :
  exists first final,
    column (candleFrame 11 14 80 24) 50 120 50 = Some first /\
    column (candleFrame 11 14 80 24) 50 120 170 = Some final /\
    (first == 1)%Q /\ (final == inject_Z 51)%Q /\
    int_of_float first = 1 /\ int_of_float final = 51.
Proof.
  apply (column_hits_panel_edges (candleFrame 11 14 80 24)
           [mkBucket 100 110 120 100 3 0 900]).
  reflexivity.
Defined.

(** ** The column formula in binary64 *)

Lemma div_eucl_self_shift m :
  Z.div_eucl (Z.shiftl (Zpos m) 53) (Zpos m) = (2 ^ 53, 0).
Proof.
  rewrite Z.shiftl_mul_pow2 by lia.
  pose proof (Z.div_mul (2 ^ 53) (Zpos m) ltac:(lia)) as Hq.
  pose proof (Z.mod_mul (2 ^ 53) (Zpos m) ltac:(lia)) as Hr.
  rewrite (Z.mul_comm (Zpos m)).
  unfold Z.div, Z.modulo in *.
  destruct (Z.div_eucl (2 ^ 53 * Zpos m) (Zpos m)) as [q r].
  cbn [fst snd] in *. congruence.
Qed.

Lemma new_location_zero n : new_location n 0 = loc_Exact.
Proof.
  unfold new_location, new_location_even, new_location_odd.
  destruct (Z.even n); reflexivity.
Qed.

(** A finite non-zero float divided by itself is exactly 1. *)
Lemma f64_div_self s m e :
  f64_div (S754_finite s m e) (S754_finite s m e) = f64_of_int 1.
Proof.
  unfold f64_div, SFdiv, SFdiv_core_binary.
  rewrite !Z.sub_diag.
  change (Z.min (fexp 53 1024 0) 0) with (-53).
  change (0 - -53) with 53.
  cbv iota beta.
  rewrite div_eucl_self_shift, new_location_zero.
  rewrite xorb_nilpotent. vm_compute. reflexivity.
Qed.

Lemma f64_sub_self v : finite_or_zero v = true -> f64_sub v v = S754_zero false.
Proof.
  destruct v as [[|]| | |s m e]; try discriminate; intros _; try reflexivity.
  unfold f64_sub, SFsub. rewrite Z.sub_diag. reflexivity.
Qed.

Lemma one_plus_zero_times s s' m e v :
  finite_or_zero v = true ->
  f64_add (f64_of_int 1)
          (f64_mul (f64_div (S754_zero s) (S754_finite s' m e)) v)
  = f64_of_int 1.
Proof.
  destruct v; try discriminate; intros _; reflexivity.
Qed.

Lemma spec_float_eqb_eq u v : spec_float_eqb u v = true -> u = v.
Proof.
  destruct u, v; cbn; try discriminate; try reflexivity.
  - intros H. apply Bool.eqb_prop in H. now subst.
  - intros H. apply Bool.eqb_prop in H. now subst.
  - intros H. apply andb_prop in H. destruct H as [H He].
    apply andb_prop in H. destruct H as [Hs Hm].
    apply Bool.eqb_prop in Hs. apply Pos.eqb_eq in Hm. apply Z.eqb_eq in He.
    now subst.
Qed.

Lemma widthsFrom_sound count a :
  widthsFrom count a = true ->
  forall width, a <= width < a + Z.of_nat count -> widthCheck width = true.
Proof.
  revert a. induction count as [|k IH]; intros a H width Hw; [lia|].
  cbn [widthsFrom] in H. apply andb_prop in H. destruct H as [Ha Hk].
  destruct (Z.eq_dec width a) as [-> | Hne]; [assumption|].
  apply (IH (a + 1)); [assumption | lia].
Qed.

(** Every width a terminal can report (its size is a 16-bit number). *)
Lemma widths_checked : widthsFrom (Z.to_nat 65537) 0 = true.
Proof. vm_compute. reflexivity. Qed.

(** The binary64 counterpart of C7: for finite bounds with a finite
    non-zero spread and a panel width from 0 to 65536, the rounded
    computation gives exactly 1 at the lower bound and exactly
    [float64(width - 1)] at the upper bound. *)
Lemma column64_hits_panel_edges width lower upper s m e :
  0 <= width <= 65536 ->
  finite_or_zero lower = true ->
  f64_sub upper lower = S754_finite s m e ->
  column64 width lower (f64_sub upper lower) lower = f64_of_int 1 /\
  column64 width lower (f64_sub upper lower) upper = f64_of_int (width - 1).
Proof.
  intros Hw Hl Hs.
  pose proof (widthsFrom_sound _ _ widths_checked width ltac:(lia)) as Hc.
  unfold widthCheck in Hc. apply andb_prop in Hc. destruct Hc as [Hf He].
  apply spec_float_eqb_eq in He.
  unfold column64. rewrite Hs. split.
  - rewrite (f64_sub_self lower Hl). now apply one_plus_zero_times.
  - now rewrite f64_div_self.
Qed.

Example column64_scenario :
  column64 52 (f64_of_int 50) (f64_sub (f64_of_int 170) (f64_of_int 50))
           (f64_of_int 170) = f64_of_int 51.
Proof.
  eapply (column64_hits_panel_edges 52 (f64_of_int 50) (f64_of_int 170)).
  - lia.
  - reflexivity.
  - vm_compute. reflexivity.
Qed.



(** The comparison is made on the rounded difference: between the doubles
    of 42.13 and 142.13 the subtraction gives exactly 100, and the bounds
    are not padded. *)
Example rounded_spread_is_not_padded :
  forall o c n s d,
    f64_sub (f64_of_cents 14213) (f64_of_cents 4213) = f64_of_int 100 /\
    candleBounds64 [mkBucket64 o c (f64_of_cents 14213) (f64_of_cents 4213)
                               n s d]
    = (f64_of_cents 4213, f64_of_cents 14213).
Proof. intros; split; vm_compute; reflexivity. Qed.

(** At a price of 10^18 one double is 128 away from the next: the padding
    of 50 is absorbed, the spread is zero and the column formula gives
    [0/0]. *)
Example padding_absorbed_at_large_prices :
  forall o c n s d,
    let bs := [mkBucket64 o c (f64_of_int (10 ^ 18)) (f64_of_int (10 ^ 18))
                          n s d] in
    candleBounds64 bs = (f64_of_int (10 ^ 18), f64_of_int (10 ^ 18)) /\
    priceSpread64 bs = S754_zero false /\
    column64 80 (fst (candleBounds64 bs)) (priceSpread64 bs)
             (f64_of_int (10 ^ 18)) = S754_nan.
Proof. intros; repeat split; vm_compute; reflexivity. Qed.

(** C10: for the messages a slice can hold (fewer than 2^63), every bucket
    counts at least one trade after every call of [ProcessMessage]; so a
    non-empty bucket sequence has a volume maximum of at least 1, and the
    volume maximum is 0 only when there is no bucket at all. *)
Theorem every_bucket_has_a_trade (candleSize : Z) (ms : list Message) :
  sliceSized ms ->
  Forall (fun b => 1 <= Trades b) (buckets (run candleSize ms)) /\
  (buckets (run candleSize ms) <> [] ->
   (1 <= volumeUpperBound (buckets (run candleSize ms)))%Q) /\
  ((volumeUpperBound (buckets (run candleSize ms)) == 0)%Q ->
   buckets (run candleSize ms) = []).
Proof.
  intros Hlen.
  assert (Hall : Forall (fun b => 1 <= Trades b) (buckets (run candleSize ms))).
  { eapply Forall_impl; [|exact (trades_bounds candleSize ms Hlen)].
    cbn. lia. }
  split; [exact Hall|]. split.
  - intros Hne. now apply volumeUpperBound_positive.
  - intros Hz. destruct (buckets (run candleSize ms)) as [|b t] eqn:E;
      [reflexivity|].
    assert (1 <= volumeUpperBound (b :: t))%Q
      by (apply volumeUpperBound_positive; [discriminate | assumption]).
    lra.
Qed.

Lemma every_bucket_has_a_trade_witness :
  Forall (fun b => 1 <= Trades b)
         (buckets (run 900 [mkMessage "buy" 300 0; mkMessage "sell" 10 1;
                            mkMessage "buy" 200 900])).
Proof.
  apply (every_bucket_has_a_trade 900). unfold sliceSized. cbn. lia.
Defined.

(** C9: in every render of a bucket sequence built by [ProcessMessage]
    (from the messages a slice can hold) the bar loop of the volume panel never
    divides by zero; and when the volume maximum is 0 the loop visits no
    row and draws no bar cell: the panel is its box, header and label. *)
Theorem no_bar_without_volume (candleSize : Z) (ms : list Message)
  (f : Frame) :
  sliceSized ms ->
  let bs := buckets (run candleSize ms) in
  (exists cells, volumeBars f bs = Some cells) /\
  ((volumeUpperBound bs == 0)%Q ->
   rows f bs = [] /\
   volumeBars f bs = Some [] /\
   DrawVolume f bs
   = Some (Box f ColorWhite ColorDefault
           ++ PrintHeader f "Volume" ColorWhite ColorDefault
           ++ Print f (w f - len (Sprintf_d 0)) (h f) ColorGreen ColorDefault
                    (Sprintf_d 0)
           ++ [])).
Proof.
  intros Hlen bs. subst bs.
  destruct (every_bucket_has_a_trade candleSize ms Hlen) as (Hall & Hpos & Hz).
  split.
  - destruct (buckets (run candleSize ms)) as [|b t] eqn:E.
    + exists []. reflexivity.
    + specialize (Hpos ltac:(discriminate)).
      apply collect_total. apply Forall_forall. intros [line bucket] _.
      unfold volumeRow, barStop. rewrite fdiv_nonzero by lra. eauto.
  - intros H0. rewrite (Hz H0). repeat split; reflexivity.
Qed.

Lemma no_bar_without_volume_witness :
  volumeBars (volumeFrame 11 24) (buckets (run 900 [])) = Some [].
Proof.
  apply (no_bar_without_volume 900 [] (volumeFrame 11 24)).
  - unfold sliceSized. cbn. lia.
  - reflexivity.
Defined.

(** * The stream connector *)

(** C5, as stated, fails: a successfully read message without a side is
    skipped before the counter is touched, so after a failure and a skipped
    message the counter is still 1 and the next failure waits 4 seconds. *)
Lemma skipped_read_keeps_counter :
  fst (readLoop 0 [ReadErr; ReadOk (mkMessage EmptyString 0 0)]) <> 0 /\
  last (waits (snd (readLoop 0 [ReadErr; ReadOk (mkMessage EmptyString 0 0);
                                ReadErr]))) 0
  <> 1 * Second.
Proof. split; vm_compute; discriminate. Qed.

Example skipped_read_trace :
  readLoop 0 [ReadErr; ReadOk (mkMessage EmptyString 0 0); ReadErr]
  = (2, [Sleep (1 * Second); Dial; Sleep (4 * Second); Dial]).
Proof. reflexivity. Qed.

(** C5 (amended): the counter is reset to 0 by every successfully read
    message that has a side (the message is then forwarded), is left
    unchanged by a successfully read message without a side (which is
    discarded), and is incremented by every read failure; so the first
    failure after a forwarded message, with any number of discarded
    messages in between, waits 1 second before reconnecting. *)
Theorem counter_reset_on_forward (c : Z) :
  (forall m, Side m <> EmptyString ->
             readLoop c [ReadOk m] = (0, [Send m])) /\
  (forall m, Side m = EmptyString -> readLoop c [ReadOk m] = (c, [])) /\
  readLoop c [ReadErr]
  = (wrap64 (c + 1), [Sleep (backoff (wrap64 (c + 1))); Dial]) /\
  (forall before m discarded,
      Side m <> EmptyString -> Forall skipped discarded ->
      exists earlier,
        readLoop c (before ++ [ReadOk m] ++ discarded ++ [ReadErr])
        = (1, earlier ++ [Send m; Sleep (1 * Second); Dial])).
Proof.
  repeat split.
  - intros m. apply readLoop_forwarded.
  - intros m H. cbn. now rewrite H.
  - intros before m discarded Hm Hd.
    exists (snd (readLoop c before)).
    rewrite readLoop_app. cbn [fst snd].
    rewrite (readLoop_app _ [ReadOk m]), (readLoop_forwarded _ m Hm).
    cbn [fst snd].
    rewrite readLoop_app, (readLoop_skipped _ _ Hd). reflexivity.
Qed.

Lemma counter_reset_on_forward_witness :
  exists earlier,
    readLoop 0 ([ReadErr; ReadErr] ++ [ReadOk (mkMessage "buy" 100 0)]
                ++ [ReadOk (mkMessage EmptyString 0 0)] ++ [ReadErr])
    = (1, earlier ++ [Send (mkMessage "buy" 100 0); Sleep (1 * Second); Dial]).
Proof.
  apply (counter_reset_on_forward 0).
  - discriminate.
  - repeat constructor.
Defined.

(** The 64-bit connector wraps only at the 96039th failure in a row: the
    square of the counter, in nanoseconds, then no longer fits a
    [time.Duration], the duration is negative and the goroutine does not
    wait.  The failures before it have by then kept the connector asleep
    for more than nine million years ([wrap_is_out_of_reach]). *)
Lemma backoff_wraps_negative :
  backoff (Z.of_nat (S maxExactBackoff)) < 0 /\
  nthWait (S maxExactBackoff) = 0 /\
  nthWait (S maxExactBackoff)
  <> Z.of_nat (S maxExactBackoff) * Z.of_nat (S maxExactBackoff) * Second.
Proof.
  assert (E : nthWait (S maxExactBackoff) = 0).
  { unfold nthWait.
    change (repeat ReadErr (S maxExactBackoff))
      with (ReadErr :: repeat ReadErr maxExactBackoff).
    rewrite repeat_cons, readLoop_app.
    pose proof (readLoop_failures maxExactBackoff 0 ltac:(lia)) as R.
    change (Z.of_nat 0) with 0 in R. rewrite R.
    cbn [fst snd readLoop]. rewrite waits_app. cbn [waits].
    rewrite last_last. vm_compute. reflexivity. }
  split; [vm_compute; reflexivity|]. split; [exact E|].
  rewrite E. vm_compute. discriminate.
Qed.

(** With an [int] of 64 bits: for every N from 1 to 96038, N read failures
    in a row from a counter at 0 make the connector sleep 1, 4, .., N^2
    seconds, dialling again after each sleep, so the wait after the Nth
    failure is exactly N^2 seconds; the same holds when messages without a
    side are read in between, which reset nothing; and whatever the counter
    and the reads, every read failure is followed by a new dial. *)
Theorem backoff_is_quadratic (n : nat) :
  ((1 <= n <= maxExactBackoff)%nat ->
   readLoop 0 (repeat ReadErr n) = (Z.of_nat n, quadraticRetries 1 n) /\
   nthWait n = Z.of_nat n * Z.of_nat n * Second) /\
  (forall reads,
      Forall noReset reads -> failures reads = n ->
      (n <= maxExactBackoff)%nat ->
      readLoop 0 reads = (Z.of_nat n, quadraticRetries 1 n)) /\
  (forall c reads, dials (snd (readLoop c reads)) = failures reads).
Proof.
  split; [|split; [|intros c reads; apply dials_failures]];
    [|intros reads Hall <- Hb; exact (readLoop_noReset reads 0 Hall Hb)].
  intros [Hlo Hhi].
  pose proof (readLoop_failures n 0 ltac:(lia)) as R.
  change (Z.of_nat 0) with 0 in R. cbn [Nat.add] in R.
  split; [exact R|].
  unfold nthWait. rewrite R. cbn [snd].
  rewrite waits_quadraticRetries by lia.
  destruct n as [|k]; [lia|].
  rewrite seq_S, map_app. cbn [map]. rewrite last_last.
  replace (1 + k)%nat with (S k) by lia. reflexivity.
Qed.

Lemma backoff_is_quadratic_witness :
  readLoop 0 (repeat ReadErr 3)
  = (3, [Sleep (1 * Second); Dial; Sleep (4 * Second); Dial;
         Sleep (9 * Second); Dial]) /\
  nthWait 3 = 9 * Second.
Proof.
  destruct (backoff_is_quadratic 3) as [H _].
  destruct H as [H1 H2].
  - unfold maxExactBackoff. split; [lia|]. apply Nat.leb_le.
    vm_compute. reflexivity.
  - split; [rewrite H1 | rewrite H2]; reflexivity.
Defined.

(** ** Either width of [int] *)

Lemma wrapInt_small bits z :
  bits = 32 \/ bits = 64 -> - 2 ^ 31 <= z < 2 ^ 31 -> wrapInt bits z = z.
Proof.
  intros [-> | ->] H; unfold wrapInt.
  - change (2 ^ (32 - 1)) with (2 ^ 31). rewrite Z.mod_small; lia.
  - change (2 ^ (64 - 1)) with (2 ^ 63). rewrite Z.mod_small; lia.
Qed.

(** [readLoop] is the loop on a platform whose [int] has 64 bits. *)
Lemma readLoopOn_64 c reads : readLoopOn 64 c reads = readLoop c reads.
Proof.
  revert c. induction reads as [|[|m] rest IH]; intros c; cbn [readLoopOn readLoop].
  - reflexivity.
  - rewrite IH. reflexivity.
  - rewrite !IH. reflexivity.
Qed.

Lemma backoffOn_exact bits n :
  bits = 32 \/ bits = 64 -> (n <= maxExactCount)%nat ->
  backoffOn bits (Z.of_nat n) = Z.of_nat n * Z.of_nat n * Second.
Proof.
  unfold maxExactCount, backoffOn, Second. intros Hb H.
  assert (0 <= Z.of_nat n <= 46340) by lia.
  assert (0 <= Z.of_nat n * Z.of_nat n <= 46340 * 46340) by nia.
  rewrite (wrapInt_small bits) by (assumption || lia).
  apply wrap64_small. lia.
Qed.

Lemma readLoopOn_app bits c rs1 rs2 :
  readLoopOn bits c (rs1 ++ rs2) =
  (fst (readLoopOn bits (fst (readLoopOn bits c rs1)) rs2),
   snd (readLoopOn bits c rs1)
   ++ snd (readLoopOn bits (fst (readLoopOn bits c rs1)) rs2)).
Proof.
  revert c. induction rs1 as [|r rs1 IH]; intros c;
    cbn [app readLoopOn fst snd].
  - now destruct (readLoopOn bits c rs2).
  - destruct r as [|m].
    + rewrite IH. destruct (readLoopOn bits (wrapInt bits (c + 1)) rs1).
      reflexivity.
    + destruct (String.length (Side m) =? 0)%nat; [apply IH|].
      rewrite IH. destruct (readLoopOn bits 0 rs1). reflexivity.
Qed.

Lemma readLoopOn_noReset bits reads c :
  bits = 32 \/ bits = 64 ->
  Forall noReset reads ->
  (c + failures reads <= maxExactCount)%nat ->
  readLoopOn bits (Z.of_nat c) reads =
  (Z.of_nat (c + failures reads), quadraticRetries (S c) (failures reads)).
Proof.
  intros Hbits Hall. revert c.
  induction Hall as [|r rest Hr _ IH]; intros c Hb.
  - cbn. now rewrite Nat.add_0_r.
  - destruct r as [|m].
    + change (failures (ReadErr :: rest)) with (S (failures rest)) in *.
      cbn [readLoopOn].
      assert (E : wrapInt bits (Z.of_nat c + 1) = Z.of_nat (S c))
        by (rewrite (wrapInt_small bits);
            unfold maxExactCount in Hb; (assumption || lia)).
      rewrite E, IH by lia. rewrite backoffOn_exact by (assumption || lia).
      unfold quadraticRetries. cbn [seq flat_map app].
      do 2 f_equal. lia.
    + change (failures (ReadOk m :: rest)) with (failures rest) in *.
      cbn in Hr. cbn [readLoopOn]. rewrite Hr. cbn. now apply IH.
Qed.

Lemma failures_repeat n : failures (repeat ReadErr n) = n.
Proof.
  unfold failures. induction n as [|k IH]; cbn; [reflexivity | now rewrite IH].
Qed.

Lemma noReset_repeat n : Forall noReset (repeat ReadErr n).
Proof. induction n; cbn; constructor; [exact I | assumption]. Qed.

Lemma dialsOn_failures bits c rs :
  dials (snd (readLoopOn bits c rs)) = failures rs.
Proof.
  revert c. induction rs as [|r rs IH]; intros c; [reflexivity|].
  destruct r as [|m]; cbn [readLoopOn].
  - specialize (IH (wrapInt bits (c + 1))).
    destruct (readLoopOn bits (wrapInt bits (c + 1)) rs) as [c1 a1].
    cbn [snd] in *. unfold dials, failures in *. cbn. now rewrite IH.
  - destruct (String.length (Side m) =? 0)%nat.
    + rewrite IH. reflexivity.
    + specialize (IH 0). destruct (readLoopOn bits 0 rs) as [c1 a1].
      cbn [snd] in *. unfold dials, failures in *. cbn. exact IH.
Qed.

Lemma slept_app a1 a2 : slept (a1 ++ a2) = slept a1 + slept a2.
Proof.
  unfold slept. rewrite waits_app, fold_right_app.
  induction (waits a1) as [|w ws IH]; cbn; [reflexivity | rewrite IH; lia].
Qed.

Lemma slept_nonneg a : 0 <= slept a.
Proof.
  unfold slept. induction a as [|[| d | m] rest IH]; cbn [waits fold_right];
    unfold suspension; lia.
Qed.

Lemma sumSquares_closed m :
  6 * sumSquares m
  = Z.of_nat m * (Z.of_nat m + 1) * (2 * Z.of_nat m + 1).
Proof.
  induction m as [|k IH]; [reflexivity|].
  cbn [sumSquares]. rewrite Nat2Z.inj_succ.
  set (z := Z.of_nat k) in *. unfold Z.succ. lia.
Qed.

Lemma slept_quadraticRetries m :
  slept (quadraticRetries 1 m) = sumSquares m * Second.
Proof.
  induction m as [|k IH]; [reflexivity|].
  unfold quadraticRetries in *. rewrite seq_S, flat_map_app, slept_app, IH.
  cbn [flat_map app sumSquares]. unfold slept. cbn [waits fold_right].
  unfold suspension, Second. replace (1 + k)%nat with (S k) by lia. nia.
Qed.

Lemma maxExactCount_value : Z.of_nat maxExactCount = 46340.
Proof. unfold maxExactCount. apply Z2Nat.id. lia. Qed.

Lemma maxExactBackoff_value : Z.of_nat maxExactBackoff = 96038.
Proof. unfold maxExactBackoff. apply Z2Nat.id. lia. Qed.

(** After [m + j] failures in a row the connector has slept at least
    [1 + 4 + .. + m^2] seconds. *)
Lemma slept_failures bits m j :
  bits = 32 \/ bits = 64 -> (m <= maxExactCount)%nat ->
  sumSquares m * Second
  <= slept (snd (readLoopOn bits 0 (repeat ReadErr (m + j)))).
Proof.
  intros Hbits Hm.
  pose proof (readLoopOn_noReset bits (repeat ReadErr m) 0 Hbits
                (noReset_repeat m)) as R.
  rewrite failures_repeat in R. specialize (R Hm).
  change (Z.of_nat 0) with 0 in R.
  rewrite repeat_app, readLoopOn_app, R. cbn [fst snd].
  rewrite slept_app, slept_quadraticRetries.
  pose proof (slept_nonneg
                (snd (readLoopOn bits (Z.of_nat (0 + m))
                        (repeat ReadErr j)))).
  lia.
Qed.

(** A streak of failures that has kept the connector asleep for less than
    a million years is of at most 46340 failures. *)
Lemma reachable_count bits n :
  bits = 32 \/ bits = 64 ->
  slept (snd (readLoopOn bits 0 (repeat ReadErr (n - 1)))) < 1000000 * year ->
  (n <= maxExactCount)%nat.
Proof.
  intros Hbits H.
  destruct (Nat.le_gt_cases n maxExactCount) as [|Hgt]; [assumption|].
  exfalso.
  pose proof (slept_failures bits maxExactCount (n - 1 - maxExactCount)
                Hbits (Nat.le_refl _)) as Hge.
  replace (maxExactCount + (n - 1 - maxExactCount))%nat with (n - 1)%nat
    in Hge by lia.
  pose proof (sumSquares_closed maxExactCount) as Hsum.
  rewrite maxExactCount_value in Hsum.
  unfold year, Second in *. lia.
Qed.

Lemma slept_readLoop_failures m :
  (m <= maxExactBackoff)%nat ->
  slept (snd (readLoop 0 (repeat ReadErr m))) = sumSquares m * Second.
Proof.
  intros Hm. pose proof (readLoop_failures m 0 Hm) as R.
  change (Z.of_nat 0) with 0 in R. rewrite R. cbn [snd].
  apply slept_quadraticRetries.
Qed.

(** The wrap of the 64-bit connector comes after more than nine million
    years asleep. *)
Lemma wrap_is_out_of_reach :
  9000000 * year < slept (snd (readLoop 0 (repeat ReadErr maxExactBackoff))).
Proof.
  rewrite (slept_readLoop_failures maxExactBackoff (Nat.le_refl _)).
  pose proof (sumSquares_closed maxExactBackoff) as Hsum.
  rewrite maxExactBackoff_value in Hsum.
  unfold year, Second. lia.
Qed.

(** C6: after the Nth read failure in a row, for every N >= 1 that the
    connector can reach (the failures before it have kept it asleep for
    less than a million years), whether [int] has 32 or 64 bits: the
    connector has slept 1, 4, .., N^2 seconds, dialling again after each
    sleep, so the wait after the Nth failure is exactly N^2 seconds; the
    same holds when messages without a side, which reset nothing, are read
    in between; and whatever the counter and the reads, every read failure
    is followed by a new dial: no retry count stops the loop. *)
Theorem backoff_quadratic_while_reachable (bits : Z) (n : nat) :
  bits = 32 \/ bits = 64 ->
  (1 <= n)%nat ->
  slept (snd (readLoopOn bits 0 (repeat ReadErr (n - 1)))) < 1000000 * year ->
  readLoopOn bits 0 (repeat ReadErr n) = (Z.of_nat n, quadraticRetries 1 n) /\
  last (waits (snd (readLoopOn bits 0 (repeat ReadErr n)))) 0
  = Z.of_nat n * Z.of_nat n * Second /\
  (forall reads,
      Forall noReset reads -> failures reads = n ->
      readLoopOn bits 0 reads = (Z.of_nat n, quadraticRetries 1 n)) /\
  (forall c reads, dials (snd (readLoopOn bits c reads)) = failures reads).
Proof.
  intros Hbits Hn Hreach.
  pose proof (reachable_count bits n Hbits Hreach) as Hmax.
  assert (R : forall reads,
             Forall noReset reads -> failures reads = n ->
             readLoopOn bits 0 reads = (Z.of_nat n, quadraticRetries 1 n)).
  { intros reads Hall <-.
    exact (readLoopOn_noReset bits reads 0 Hbits Hall Hmax). }
  assert (E : readLoopOn bits 0 (repeat ReadErr n)
              = (Z.of_nat n, quadraticRetries 1 n))
    by (apply R; [apply noReset_repeat | apply failures_repeat]).
  split; [exact E|]. split; [|split; [exact R|]].
  - rewrite E. cbn [snd]. rewrite waits_quadraticRetries by lia.
    destruct n as [|k]; [lia|].
    rewrite seq_S, map_app. cbn [map]. rewrite last_last.
    replace (1 + k)%nat with (S k) by lia. reflexivity.
  - intros c reads. apply dialsOn_failures.
Qed.

Lemma backoff_quadratic_while_reachable_witness :
  readLoopOn 32 0 (repeat ReadErr 3)
  = (3, [Sleep (1 * Second); Dial; Sleep (4 * Second); Dial;
         Sleep (9 * Second); Dial]) /\
  last (waits (snd (readLoopOn 32 0 (repeat ReadErr 3)))) 0 = 9 * Second.
Proof.
  destruct (backoff_quadratic_while_reachable 32 3) as [H1 [H2 _]].
  - left. reflexivity.
  - lia.
  - vm_compute. reflexivity.
  - split; [exact H1 | exact H2].
Defined.

(** * Further properties of the aggregator *)

Lemma totalTrades_app bs bs' :
  totalTrades (bs ++ bs') = totalTrades bs + totalTrades bs'.
Proof.
  unfold totalTrades. induction bs as [|b t IH]; cbn [app fold_right];
    [reflexivity|].
  rewrite IH. lia.
Qed.

Lemma sliceSized_snoc_inv {A : Type} (l : list A) (a : A) :
  sliceSized (l ++ [a]) -> sliceSized l.
Proof. unfold sliceSized. rewrite length_app. cbn. lia. Qed.

(** X1: the trade counts of the buckets add up to the number of messages
    received: every trade is counted in exactly one bucket. *)
Theorem trade_counts_add_up (candleSize : Z) (ms : list Message) :
  sliceSized ms ->
  totalTrades (buckets (run candleSize ms)) = Z.of_nat (List.length ms).
Proof.
  pattern ms, (buckets (run candleSize ms)). apply buckets_ind; clear ms.
  - reflexivity.
  - intros ms m E _ _. apply buckets_nil_iff in E. now subst ms.
  - intros ms m old b E IH Hs Hlen.
    pose proof (sliceSized_snoc_inv _ _ Hlen) as Hlen'.
    specialize (IH Hlen').
    pose proof (trades_bounds candleSize ms Hlen') as Hb.
    rewrite E in Hb. apply Forall_app in Hb. destruct Hb as [_ Hb].
    inversion Hb as [|? ? Hb' _]; subst.
    rewrite totalTrades_app in *. cbn in *.
    unfold sliceSized in Hlen. rewrite length_app in *. cbn in Hlen.
    rewrite wrap64_small by lia. cbn. lia.
  - intros ms m old b E IH Hs Hlen.
    specialize (IH (sliceSized_snoc_inv _ _ Hlen)).
    replace (old ++ [b; opened candleSize m])
      with ((old ++ [b]) ++ [opened candleSize m])
      by (now rewrite <- app_assoc).
    rewrite totalTrades_app, IH, length_app. cbn. lia.
Qed.

Lemma trade_counts_add_up_witness :
  totalTrades (buckets (run 900 [mkMessage "buy" 300 0; mkMessage "sell" 10 1;
                                 mkMessage "buy" 200 900])) = 3.
Proof.
  apply (trade_counts_add_up 900). unfold sliceSized. cbn. lia.
Defined.

Lemma open_close_bounds (candleSize : Z) (ms : list Message) :
  Forall (fun b => (Min b <= Open b)%Q /\ (Open b <= Max b)%Q /\
                   (Min b <= Close b)%Q /\ (Close b <= Max b)%Q /\
                   Duration b = candleSize)
         (buckets (run candleSize ms)).
Proof.
  pattern ms, (buckets (run candleSize ms)). apply buckets_ind; clear ms.
  - constructor.
  - intros ms m _ _. repeat constructor; cbn;
      auto using math_Min_le_r, math_Max_ge_r.
  - intros ms m old b _ IH _. apply Forall_app in IH.
    destruct IH as [Hold Hb].
    inversion Hb as [|? ? (H1 & H2 & H3 & H4 & H5) _]; subst.
    apply Forall_app. split; [assumption|].
    pose proof (math_Min_le_l (Min b) (Price m)).
    pose proof (math_Min_le_r (Min b) (Price m)).
    pose proof (math_Max_ge_l (Max b) (Price m)).
    pose proof (math_Max_ge_r (Max b) (Price m)).
    constructor; [|constructor]. cbn. repeat split; auto; lra.
  - intros ms m old b _ IH _.
    replace (old ++ [b; opened candleSize m])
      with ((old ++ [b]) ++ [opened candleSize m])
      by (now rewrite <- app_assoc).
    apply Forall_app. split; [assumption|].
    repeat constructor; cbn; auto using math_Min_le_r, math_Max_ge_r.
Qed.

(** X2: whatever the prices, in every bucket the open and the close lie
    between the low and the high, and the bucket records the candle size
    in force. *)
Theorem open_close_within_low_high (candleSize : Z) (ms : list Message) :
  Forall (fun b => (Min b <= Open b)%Q /\ (Open b <= Max b)%Q /\
                   (Min b <= Close b)%Q /\ (Close b <= Max b)%Q /\
                   Duration b = candleSize)
         (buckets (run candleSize ms)).
Proof. apply open_close_bounds. Qed.

Lemma windowChanges_snoc candleSize ms m' m :
  windowChanges candleSize ((ms ++ [m']) ++ [m]) =
  (windowChanges candleSize (ms ++ [m'])
   + if (windowStart candleSize m' =? windowStart candleSize m)%Z
     then 0 else 1)%nat.
Proof.
  induction ms as [|a t IH].
  - cbn. lia.
  - change (((a :: t) ++ [m']) ++ [m]) with (a :: ((t ++ [m']) ++ [m])).
    change ((a :: t) ++ [m']) with (a :: (t ++ [m'])).
    cbn [windowChanges]. rewrite IH.
    destruct t; cbn [app]; lia.
Qed.

(** X3: with no assumption on the timestamps, a non-empty trade sequence
    gives one bucket, plus one for every trade whose window differs from
    that of the trade before it; a window that comes back gets a new
    bucket. *)
Theorem one_bucket_per_window_change (candleSize : Z) (ms : list Message) :
  ms <> [] ->
  List.length (buckets (run candleSize ms)) = S (windowChanges candleSize ms).
Proof.
  pattern ms, (buckets (run candleSize ms)). apply buckets_ind; clear ms.
  - congruence.
  - intros ms m E _ _. apply buckets_nil_iff in E. now subst ms.
  - intros ms m old b E IH Hs _.
    destruct (last_bucket_of candleSize _ _ _ E) as (ms' & m' & -> & Hb).
    specialize (IH ltac:(now destruct ms')).
    rewrite windowChanges_snoc, <- Hb, Hs, Z.eqb_refl.
    rewrite length_app in *. cbn in *. lia.
  - intros ms m old b E IH Hs _.
    destruct (last_bucket_of candleSize _ _ _ E) as (ms' & m' & -> & Hb).
    specialize (IH ltac:(now destruct ms')).
    rewrite windowChanges_snoc, <- Hb.
    destruct (Z.eqb_spec (Start b) (windowStart candleSize m)); [contradiction|].
    rewrite length_app in *. cbn in *. lia.
Qed.

Lemma one_bucket_per_window_change_witness :
  List.length (buckets (run 900 [mkMessage "buy" 100 0; mkMessage "buy" 101 900;
                                 mkMessage "buy" 102 5])) = 3%nat.
Proof.
  apply (one_bucket_per_window_change 900). discriminate.
Defined.

Lemma Sorted_snoc2 {A : Type} (R : A -> A -> Prop) l a b :
  Sorted R (l ++ [a]) -> R a b -> Sorted R ((l ++ [a]) ++ [b]).
Proof.
  intros Hs Hab. induction l as [|c t IH]; cbn in *.
  - repeat constructor. assumption.
  - apply Sorted_inv in Hs. destruct Hs as [Ht Hc].
    constructor; [auto|].
    destruct t; cbn in *; inversion Hc; subst; constructor; assumption.
Qed.

(** X4: with no assumption on the timestamps, two buckets next to each
    other never have the same window. *)
Theorem neighbours_differ (candleSize : Z) (ms : list Message) :
  Sorted (fun s s' => s <> s') (map Start (buckets (run candleSize ms))).
Proof.
  pattern ms, (buckets (run candleSize ms)). apply buckets_ind; clear ms.
  - constructor.
  - intros. repeat constructor.
  - intros ms m old b _ IH _. rewrite map_app in *. exact IH.
  - intros ms m old b _ IH Hs.
    replace (old ++ [b; opened candleSize m])
      with ((old ++ [b]) ++ [opened candleSize m])
      by (now rewrite <- app_assoc).
    rewrite !map_app in *. cbn [map opened Start] in *.
    now apply Sorted_snoc2.
Qed.

(** X5: with a positive candle size, every trade routed into a bucket has
    its timestamp inside the bucket's window, from the start (included) to
    the start plus the candle size (excluded), and the start is a multiple
    of the candle size. *)
Theorem trades_fall_in_their_window (candleSize : Z) (ms : list Message) :
  0 < candleSize ->
  Forall2 (fun b g =>
             Start b mod candleSize = 0 /\
             Forall (fun m => Start b <= Time m < Start b + candleSize)
                    (snd g))
          (buckets (run candleSize ms)) (routed candleSize ms).
Proof.
  intros Hd.
  pose proof (windows_of_groups candleSize _ _
                (starts_routed candleSize ms)
                (routed_oneWindow candleSize ms)) as H.
  pose proof (routed_oneWindow candleSize ms) as Hne.
  revert H Hne. generalize (buckets (run candleSize ms)), (routed candleSize ms).
  intros bs gs H. induction H as [|b g bs gs Hbg _ IH]; intros Hne;
    constructor.
  - inversion Hne as [|? ? [Hg _] _]; subst. split.
    + destruct (snd g) as [|m0 t]; [congruence|].
      inversion Hbg as [|? ? Hm0 _]; subst. rewrite Hm0.
      unfold windowStart. rewrite Truncate_floor by assumption.
      apply Z.mod_mul. lia.
    + eapply Forall_impl; [|exact Hbg]. cbn. intros m ->.
      unfold windowStart, Truncate. destruct (Z.leb_spec candleSize 0); [lia|].
      pose proof (Z.mod_pos_bound (Time m) candleSize Hd). lia.
  - apply IH. now inversion Hne.
Qed.

Lemma trades_fall_in_their_window_witness :
  Forall2 (fun b g =>
             Start b mod 900 = 0 /\
             Forall (fun m => Start b <= Time m < Start b + 900) (snd g))
          (buckets (run 900 [mkMessage "buy" 100 5; mkMessage "buy" 101 1000]))
          (routed 900 [mkMessage "buy" 100 5; mkMessage "buy" 101 1000]).
Proof.
  apply (trades_fall_in_their_window 900). lia.
Defined.

(** * Further properties of the stream connector *)

(** X6: whatever the counter and the failures in between, the messages put
    on the channel are exactly the successfully read messages that have a
    side, in the order they were read; a message without a side is never
    forwarded. *)
Theorem forwards_messages_with_side (c : Z) (reads : list ReadResult) :
  sends (snd (readLoop c reads)) = forwarded reads /\
  Forall (fun m => Side m <> EmptyString) (forwarded reads).
Proof.
  split.
  - revert c. induction reads as [|r rest IH]; intros c; [reflexivity|].
    destruct r as [|m]; cbn [readLoop forwarded flat_map].
    + specialize (IH (wrap64 (c + 1))).
      destruct (readLoop (wrap64 (c + 1)) rest) as [c1 a1]. exact IH.
    + destruct (String.length (Side m) =? 0)%nat; [apply IH|].
      specialize (IH 0). destruct (readLoop 0 rest) as [c1 a1].
      cbn [snd sends app] in *. now rewrite IH.
  - induction reads as [|r rest IH]; [constructor|].
    destruct r as [|m]; cbn [forwarded flat_map]; [exact IH|].
    destruct (Side m) eqn:E; cbn; [exact IH|].
    constructor; [congruence | exact IH].
Qed.

(** X7: as long as the counter stays within the range where it cannot
    wrap, after any sequence of reads the counter is the number of read
    failures since the last forwarded message (or since the start). *)
Theorem counter_counts_failures_since_forward (reads : list ReadResult)
  (sofar : nat) :
  (sofar + failures reads <= maxExactBackoff)%nat ->
  fst (readLoop (Z.of_nat sofar) reads)
  = Z.of_nat (trailingFailures reads sofar).
Proof.
  revert sofar. induction reads as [|r rest IH]; intros sofar Hb;
    [reflexivity|].
  destruct r as [|m]; cbn [readLoop trailingFailures].
  - change (failures (ReadErr :: rest)) with (S (failures rest)) in Hb.
    replace (wrap64 (Z.of_nat sofar + 1)) with (Z.of_nat (S sofar))
      by (rewrite wrap64_small; unfold maxExactBackoff in Hb; lia).
    specialize (IH (S sofar) ltac:(lia)).
    destruct (readLoop (Z.of_nat (S sofar)) rest) as [c1 a1]. exact IH.
  - change (failures (ReadOk m :: rest)) with (failures rest) in Hb.
    destruct (String.length (Side m) =? 0)%nat; [now apply IH|].
    specialize (IH O ltac:(lia)). change (Z.of_nat 0) with 0 in IH.
    destruct (readLoop 0 rest) as [c1 a1]. exact IH.
Qed.

Lemma counter_counts_failures_since_forward_witness :
  fst (readLoop 0 [ReadErr; ReadErr; ReadOk (mkMessage "buy" 100 0);
                   ReadErr; ReadOk (mkMessage EmptyString 0 0); ReadErr])
  = 2.
Proof.
  apply (counter_counts_failures_since_forward
           [ReadErr; ReadErr; ReadOk (mkMessage "buy" 100 0);
            ReadErr; ReadOk (mkMessage EmptyString 0 0); ReadErr] 0).
  apply Nat.leb_le. vm_compute. reflexivity.
Defined.

(** * The event loop *)

Lemma eventLoop_from candleSize pre inputs :
  let '(draws, final, exited) :=
    eventLoop candleSize (run candleSize pre) inputs in
  final = run candleSize (pre ++ receivedBeforeEsc inputs) /\
  List.length draws = redrawsBeforeEsc inputs /\
  exited = hasEsc inputs /\
  Forall (fun st => exists n,
              st = run candleSize
                       (pre ++ firstn n (receivedBeforeEsc inputs)))
         draws.
Proof.
  revert pre. induction inputs as [|i rest IH]; intros pre.
  - cbn. rewrite app_nil_r. repeat split. constructor.
  - destruct i as [m | [key | | ]]; cbn [eventLoop receivedBeforeEsc
                                           redrawsBeforeEsc hasEsc existsb].
    + rewrite <- run_snoc. specialize (IH (pre ++ [m])).
      destruct (eventLoop candleSize (run candleSize (pre ++ [m])) rest)
        as [[draws final] exited].
      destruct IH as (Hf & Hl & He & Hd).
      rewrite <- app_assoc in Hf. cbn [app] in Hf.
      repeat split; auto.
      * cbn. now rewrite Hl.
      * constructor.
        -- exists 1%nat. cbn. reflexivity.
        -- eapply Forall_impl; [|exact Hd]. cbn. intros st [n ->].
           exists (S n). cbn. now rewrite <- app_assoc.
    + destruct (key =? KeyEsc).
      * cbn. rewrite app_nil_r. repeat split. constructor.
      * cbn [orb]. apply IH.
    + specialize (IH pre).
      destruct (eventLoop candleSize (run candleSize pre) rest)
        as [[draws final] exited].
      destruct IH as (Hf & Hl & He & Hd).
      repeat split; auto.
      * cbn. now rewrite Hl.
      * constructor; [|assumption]. exists O. cbn. now rewrite app_nil_r.
    + cbn [orb]. apply IH.
Qed.

(** X8: [main] ends with the aggregator state of exactly the messages
    received before the first Esc key, in order; it calls [Draw] once at
    the start and once more for every message and every resize before that
    key, and for nothing else; and it leaves its loop exactly when an Esc
    key is among the events. *)
Theorem main_processes_until_esc (candleSize : Z) (inputs : list Input) :
  let '(draws, final, exited) := main candleSize inputs in
  final = run candleSize (receivedBeforeEsc inputs) /\
  trades final = receivedBeforeEsc inputs /\
  List.length draws = S (redrawsBeforeEsc inputs) /\
  exited = hasEsc inputs.
Proof.
  unfold main. pose proof (eventLoop_from candleSize [] inputs) as H.
  change (run candleSize []) with initial in H.
  destruct (eventLoop candleSize initial inputs) as [[draws final] exited].
  destruct H as (Hf & Hl & He & _). cbn [app] in Hf.
  repeat split; auto.
  - rewrite Hf. apply trades_run.
  - cbn. now rewrite Hl.
Qed.

Lemma eventLoop_app candleSize st before rest :
  hasEsc before = false ->
  eventLoop candleSize st (before ++ rest)
  = (fst (fst (eventLoop candleSize st before))
     ++ fst (fst (eventLoop candleSize
                    (snd (fst (eventLoop candleSize st before))) rest)),
     snd (fst (eventLoop candleSize
                 (snd (fst (eventLoop candleSize st before))) rest)),
     snd (eventLoop candleSize
            (snd (fst (eventLoop candleSize st before))) rest)).
Proof.
  revert st. induction before as [|i more IH]; intros st Hno.
  - cbn [app eventLoop fst snd].
    now destruct (eventLoop candleSize st rest) as [[d f] e].
  - destruct i as [m | [key | | ]]; cbn [app eventLoop hasEsc existsb] in *.
    + rewrite IH by assumption.
      destruct (eventLoop candleSize (ProcessMessage candleSize m st) more)
        as [[d f] e]. reflexivity.
    + apply orb_false_iff in Hno. destruct Hno as [Hk Hmore].
      rewrite Hk. now apply IH.
    + rewrite IH by assumption.
      destruct (eventLoop candleSize st more) as [[d f] e]. reflexivity.
    + now apply IH.
Qed.

Lemma receivedBeforeEsc_app before rest :
  hasEsc before = false ->
  receivedBeforeEsc (before ++ rest)
  = receivedBeforeEsc before ++ receivedBeforeEsc rest.
Proof.
  induction before as [|i more IH]; intros Hno; [reflexivity|].
  destruct i as [m | [key | | ]];
    cbn [app receivedBeforeEsc hasEsc existsb] in *; auto.
  - now rewrite IH.
  - apply orb_false_iff in Hno. destruct Hno as [Hk Hmore].
    rewrite Hk. now apply IH.
Qed.

(** Every call of [Draw] in the loop has an input that caused it. *)
Lemma redraw_has_a_cause inputs k :
  (k < redrawsBeforeEsc inputs)%nat ->
  exists before i after,
    inputs = before ++ i :: after /\ hasEsc before = false /\
    redraws i = true /\ redrawsBeforeEsc before = k.
Proof.
  revert k. induction inputs as [|i0 rest IH]; intros k Hk;
    [cbn in Hk; lia|].
  assert (Hdraw : redraws i0 = true ->
                  redrawsBeforeEsc (i0 :: rest) = S (redrawsBeforeEsc rest) ->
                  (forall pre, hasEsc (i0 :: pre) = hasEsc pre) ->
                  (forall pre, redrawsBeforeEsc (i0 :: pre)
                               = S (redrawsBeforeEsc pre)) ->
                  exists before i after,
                    i0 :: rest = before ++ i :: after /\ hasEsc before = false /\
                    redraws i = true /\ redrawsBeforeEsc before = k).
  { intros Hi Hr Hesc Hcount. rewrite Hr in Hk. destruct k as [|k'].
    - exists [], i0, rest. repeat split; assumption.
    - destruct (IH k' ltac:(lia)) as (b & i & a & -> & Hno & Hi' & Hb).
      exists (i0 :: b), i, a. rewrite Hesc, Hcount, Hb. repeat split; auto. }
  assert (Hskip : redrawsBeforeEsc (i0 :: rest) = redrawsBeforeEsc rest ->
                  (forall pre, hasEsc (i0 :: pre) = hasEsc pre) ->
                  (forall pre, redrawsBeforeEsc (i0 :: pre)
                               = redrawsBeforeEsc pre) ->
                  exists before i after,
                    i0 :: rest = before ++ i :: after /\ hasEsc before = false /\
                    redraws i = true /\ redrawsBeforeEsc before = k).
  { intros Hr Hesc Hcount. rewrite Hr in Hk.
    destruct (IH k Hk) as (b & i & a & -> & Hno & Hi' & Hb).
    exists (i0 :: b), i, a. rewrite Hesc, Hcount, Hb. repeat split; auto. }
  destruct i0 as [m | [key | | ]].
  - apply Hdraw; reflexivity.
  - cbn [redrawsBeforeEsc] in Hk. destruct (key =? KeyEsc) eqn:Hkey; [lia|].
    apply Hskip; cbn [redrawsBeforeEsc hasEsc existsb]; rewrite Hkey;
      reflexivity.
  - apply Hdraw; reflexivity.
  - apply Hskip; reflexivity.
Qed.

(** The state drawn for an input that redraws, [before] being the inputs
    taken ahead of it. *)
Lemma draw_of_input candleSize before i after :
  hasEsc before = false -> redraws i = true ->
  nth_error (fst (fst (main candleSize (before ++ i :: after))))
            (S (redrawsBeforeEsc before))
  = Some (run candleSize (receivedBeforeEsc (before ++ [i]))).
Proof.
  intros Hno Hi. unfold main.
  rewrite (eventLoop_app candleSize initial before (i :: after) Hno).
  pose proof (eventLoop_from candleSize [] before) as H.
  change (run candleSize []) with initial in H.
  destruct (eventLoop candleSize initial before) as [[d1 f1] e1].
  destruct H as (Hf & Hl & _ & _). cbn [app fst snd] in *.
  rewrite (receivedBeforeEsc_app before [i] Hno).
  assert (E : fst (fst (eventLoop candleSize f1 (i :: after)))
              = run candleSize (receivedBeforeEsc before
                                ++ receivedBeforeEsc [i])
                :: fst (fst (eventLoop candleSize
                               (run candleSize (receivedBeforeEsc before
                                                ++ receivedBeforeEsc [i]))
                               after))).
  { destruct i as [m | [key | | ]]; try discriminate Hi;
      cbn [eventLoop receivedBeforeEsc].
    - rewrite run_snoc, <- Hf.
      destruct (eventLoop candleSize (ProcessMessage candleSize m f1) after)
        as [[d f] e]. reflexivity.
    - rewrite app_nil_r, <- Hf.
      destruct (eventLoop candleSize f1 after) as [[d f] e]. reflexivity. }
  destruct (eventLoop candleSize f1 (i :: after)) as [[d2 f2] e2].
  cbn [fst snd] in *. subst d2.
  cbn [nth_error]. rewrite nth_error_app2 by lia.
  rewrite Hl, Nat.sub_diag. reflexivity.
Qed.

(** X9: every call of [Draw] shows the state as it is at that moment: the
    first call the empty state, and the call made for a message or a
    resize the aggregator state of exactly the messages received up to
    and including that input; and [Draw] is called for nothing else: each
    further call has such an input before the first Esc key. *)
Theorem each_draw_shows_the_current_state (candleSize : Z)
  (inputs : list Input) :
  nth_error (fst (fst (main candleSize inputs))) 0 = Some initial /\
  (forall before i after,
      inputs = before ++ i :: after -> hasEsc before = false ->
      redraws i = true ->
      nth_error (fst (fst (main candleSize inputs)))
                (S (redrawsBeforeEsc before))
      = Some (run candleSize (receivedBeforeEsc (before ++ [i])))) /\
  (forall k st,
      nth_error (fst (fst (main candleSize inputs))) (S k) = Some st ->
      exists before i after,
        inputs = before ++ i :: after /\ hasEsc before = false /\
        redraws i = true /\ redrawsBeforeEsc before = k /\
        st = run candleSize (receivedBeforeEsc (before ++ [i]))).
Proof.
  split; [|split].
  - unfold main.
    destruct (eventLoop candleSize initial inputs) as [[d f] e]. reflexivity.
  - intros before i after -> Hno Hi. now apply draw_of_input.
  - intros k st Hk.
    assert (Hlt : (k < redrawsBeforeEsc inputs)%nat).
    { assert (Hlen : (S k < List.length (fst (fst (main candleSize inputs))))%nat)
        by (apply nth_error_Some; congruence).
      unfold main in Hlen.
      pose proof (eventLoop_from candleSize [] inputs) as H.
      change (run candleSize []) with initial in H.
      destruct (eventLoop candleSize initial inputs) as [[d f] e].
      destruct H as (_ & Hl & _ & _). cbn [fst List.length] in Hlen. lia. }
    destruct (redraw_has_a_cause inputs k Hlt)
      as (before & i & after & E & Hno & Hi & Hb).
    exists before, i, after. repeat split; try assumption.
    subst inputs. rewrite <- Hb in Hk.
    rewrite (draw_of_input candleSize before i after Hno Hi) in Hk.
    congruence.
Qed.

Lemma each_draw_shows_the_current_state_witness :
  nth_error
    (fst (fst (main 900 ([Received (mkMessage "buy" 100 5);
                          Polled (EventKey 13)]
                         ++ Received (mkMessage "sell" 90 6)
                         :: [Polled EventResize]))))
    2
  = Some (run 900 [mkMessage "buy" 100 5; mkMessage "sell" 90 6]).
Proof.
  destruct (each_draw_shows_the_current_state 900
              ([Received (mkMessage "buy" 100 5); Polled (EventKey 13)]
               ++ Received (mkMessage "sell" 90 6) :: [Polled EventResize]))
    as [_ [H _]].
  exact (H [Received (mkMessage "buy" 100 5); Polled (EventKey 13)]
           (Received (mkMessage "sell" 90 6)) [Polled EventResize]
           eq_refl eq_refl eq_refl).
Defined.

Lemma eventLoop_stops_at_esc candleSize st before after :
  hasEsc before = false ->
  eventLoop candleSize st (before ++ Polled (EventKey KeyEsc) :: after)
  = (fst (fst (eventLoop candleSize st before)),
     snd (fst (eventLoop candleSize st before)), true).
Proof.
  revert st. induction before as [|i rest IH]; intros st Hno.
  - reflexivity.
  - destruct i as [m | [key | | ]]; cbn [app eventLoop hasEsc existsb] in *.
    + rewrite IH by assumption.
      destruct (eventLoop candleSize (ProcessMessage candleSize m st) rest)
        as [[d f] e]. reflexivity.
    + apply orb_false_iff in Hno. destruct Hno as [Hk Hrest].
      rewrite Hk. now apply IH.
    + rewrite IH by assumption.
      destruct (eventLoop candleSize st rest) as [[d f] e]. reflexivity.
    + now apply IH.
Qed.

(** X10: once an Esc key is polled nothing that follows is processed:
    whatever the two channels would deliver afterwards, [main] draws the
    same states and ends in the same state as if the inputs stopped
    there. *)
Theorem nothing_after_esc (candleSize : Z) (before after : list Input) :
  hasEsc before = false ->
  main candleSize (before ++ Polled (EventKey KeyEsc) :: after)
  = (fst (fst (main candleSize before)), snd (fst (main candleSize before)),
     true).
Proof.
  intros Hno. unfold main. rewrite eventLoop_stops_at_esc by assumption.
  destruct (eventLoop candleSize initial before) as [[d f] e]. reflexivity.
Qed.

Lemma nothing_after_esc_witness :
  main 900 ([Received (mkMessage "buy" 100 5); Polled EventResize]
            ++ Polled (EventKey KeyEsc) :: [Received (mkMessage "sell" 90 6)])
  = (fst (fst (main 900 [Received (mkMessage "buy" 100 5);
                         Polled EventResize])),
     snd (fst (main 900 [Received (mkMessage "buy" 100 5);
                         Polled EventResize])),
     true).
Proof.
  apply (nothing_after_esc 900). reflexivity.
Defined.

(** * The canvas *)

Lemma upto_In a b i : In i (upto a b) <-> a <= i <= b.
Proof.
  unfold upto. rewrite in_map_iff. split.
  - intros (k & <- & Hk). apply in_seq in Hk. lia.
  - intros H. exists (Z.to_nat (i - a)). split; [lia|].
    apply in_seq. lia.
Qed.

Lemma upto_length a b : List.length (upto a b) = Z.to_nat (b - a + 1).
Proof. unfold upto. now rewrite length_map, length_seq. Qed.

Lemma upto_empty a b : b < a -> upto a b = [].
Proof.
  intros H. unfold upto. replace (Z.to_nat (b - a + 1)) with O by lia.
  reflexivity.
Qed.

Lemma PrintRunes_print_tb f cx cy fg bg msg :
  PrintRunes f cx cy fg bg msg = print_tb (x f + cx) (y f + cy) fg bg msg.
Proof.
  revert cx. induction msg as [|c rest IH]; intros cx; [reflexivity|].
  cbn [PrintRunes print_tb]. unfold SetCell at 1. rewrite IH.
  now rewrite Z.add_assoc.
Qed.

Lemma print_tb_nth cx cy fg bg msg k c :
  nth_error msg k = Some c ->
  nth_error (print_tb cx cy fg bg msg) k
  = Some (mkCell (cx + Z.of_nat k) cy c fg bg).
Proof.
  revert cx k. induction msg as [|c0 rest IH]; intros cx [|k] H;
    try discriminate.
  - injection H as ->. cbn. now rewrite Z.add_0_r.
  - cbn [nth_error print_tb] in *. rewrite (IH _ _ H).
    do 2 f_equal. lia.
Qed.

Lemma print_tb_length cx cy fg bg msg :
  List.length (print_tb cx cy fg bg msg) = List.length msg.
Proof.
  revert cx. induction msg as [|c rest IH]; intros cx; cbn; [reflexivity|].
  now rewrite IH.
Qed.

Lemma decodeRune_size s0 rest :
  (1 <= snd (decodeRune s0 rest) <= 4)%nat.
Proof.
  unfold decodeRune.
  repeat match goal with
         | |- context [if ?c then _ else _] => destruct c
         | |- context [match ?l with [] => _ | _ :: _ => _ end] => destruct l
         end; cbn [snd]; lia.
Qed.

Lemma decodeRunes_length steps bs :
  (List.length (decodeRunes steps bs) <= List.length bs)%nat.
Proof.
  revert bs. induction steps as [|k IH]; intros [|s0 rest]; cbn [decodeRunes];
    try (cbn; lia).
  destruct (decodeRune s0 rest) as [r size].
  specialize (IH (skipn (size - 1) rest)). rewrite length_skipn in IH.
  cbn [List.length]. lia.
Qed.

(** More steps than bytes change nothing: the decoding is never cut
    short. *)
Lemma decodeRunes_steps steps steps' bs :
  (List.length bs <= steps)%nat -> (List.length bs <= steps')%nat ->
  decodeRunes steps bs = decodeRunes steps' bs.
Proof.
  revert steps' bs. induction steps as [|k IH]; intros [|k'] [|s0 rest] H H';
    cbn in H, H'; try lia; try reflexivity.
  cbn [decodeRunes]. destruct (decodeRune s0 rest) as [r size].
  f_equal. apply IH; rewrite length_skipn; lia.
Qed.

Lemma decodeRunes_ascii steps bs :
  Forall (fun b => b < 128) bs -> (List.length bs <= steps)%nat ->
  decodeRunes steps bs = bs.
Proof.
  revert bs. induction steps as [|k IH]; intros [|s0 rest] Hall H;
    cbn in H; try lia; try reflexivity.
  inversion Hall as [|? ? Hs0 Hrest]; subst.
  cbn [decodeRunes]. unfold decodeRune.
  destruct (Z.ltb_spec s0 128); [|lia].
  cbn [skipn Nat.sub]. f_equal. apply IH; [assumption | lia].
Qed.

Lemma bytes_length msg : List.length (bytes msg) = String.length msg.
Proof.
  unfold bytes. rewrite length_map.
  induction msg as [|a s IH]; cbn; [reflexivity | now rewrite IH].
Qed.

(** X11: [Frame.Print] is [print_tb] moved by the origin of the frame: it
    sets one cell per rune of the message, decoded as UTF-8, the [k]-th
    rune at column [f.x + x + k] of row [f.y + y] with the colours given;
    never more cells than the message has bytes, and exactly one per byte
    for an ASCII message. *)
Theorem Print_is_shifted_print_tb (f : Frame) (cx cy : Z)
  (fg bg : Attribute) (msg : string) :
  Print f cx cy fg bg msg = print_tb (x f + cx) (y f + cy) fg bg (runes msg) /\
  List.length (Print f cx cy fg bg msg) = List.length (runes msg) /\
  (List.length (runes msg) <= String.length msg)%nat /\
  (Forall (fun b => b < 128) (bytes msg) ->
   runes msg = bytes msg /\
   List.length (Print f cx cy fg bg msg) = String.length msg) /\
  forall k c, nth_error (runes msg) k = Some c ->
              nth_error (Print f cx cy fg bg msg) k
              = Some (mkCell (x f + cx + Z.of_nat k) (y f + cy) c fg bg).
Proof.
  unfold Print. rewrite PrintRunes_print_tb.
  split; [reflexivity|]. rewrite print_tb_length.
  split; [reflexivity|]. split; [|split].
  - unfold runes. rewrite <- (bytes_length msg). apply decodeRunes_length.
  - intros Hascii.
    assert (E : runes msg = bytes msg)
      by (unfold runes; apply decodeRunes_ascii; [assumption | lia]).
    split; [exact E|]. now rewrite E, bytes_length.
  - intros k c H. now apply print_tb_nth.
Qed.

(** One cell for a two-byte character (e acute, bytes C3 A9), one for the
    three bytes of a box-drawing line, one per byte of an invalid text. *)
Example runes_of_utf8 :
  runes (String (ascii_of_nat 195) (String (ascii_of_nat 169) EmptyString))
  = [233] /\
  runes (String (ascii_of_nat 226)
           (String (ascii_of_nat 148) (String (ascii_of_nat 128) EmptyString)))
  = [rune_horizontal] /\
  runes (String (ascii_of_nat 237)
           (String (ascii_of_nat 160) (String (ascii_of_nat 128) EmptyString)))
  = [RuneError; RuneError; RuneError] /\
  runes "buy" = [98; 117; 121].
Proof. repeat split; reflexivity. Qed.

Lemma Qceiling_half n : n <= 2 * Qceiling (n # 2) <= n + 1.
Proof.
  unfold Qceiling, Qfloor. cbn [Qopp Qnum Qden].
  pose proof (Z.div_mod (- n) 2 ltac:(lia)).
  pose proof (Z.mod_pos_bound (- n) 2 ltac:(lia)). lia.
Qed.

(** X12: [PrintHeader] prints the label on the top row of the frame,
    starting at the column [c] with [w - len <= 2c <= w - len + 1]: the
    label is centred, the odd column going to the left margin. *)
Theorem PrintHeader_is_centred (f : Frame) (msg : string)
  (fg bg : Attribute) :
  exists c,
    PrintHeader f msg fg bg = Print f c 0 fg bg msg /\
    w f - len msg <= 2 * c <= w f - len msg + 1.
Proof.
  unfold PrintHeader. eexists. split; [reflexivity|].
  assert (E : (inject_Z (w f) / 2 - inject_Z (len msg) / 2
               == (w f - len msg) # 2)%Q).
  { unfold Qeq, Qdiv, Qminus, Qplus, Qmult, Qopp, Qinv, inject_Z. cbn. lia. }
  rewrite (Qceiling_comp _ _ E). apply Qceiling_half.
Qed.

(** X13: [Frame.Clear] blanks the cells of the frame's rows whose column,
    counted from the frame's left edge, is below [f.x], the frame's own
    position: the width of the frame plays no part, and a frame at the left
    edge of the screen is not cleared at all. *)
Theorem Clear_uses_frame_position (f : Frame) :
  (forall c, In c (Clear f) <->
             exists cx cy, 0 <= cx < x f /\ 0 <= cy < h f /\
                           c = mkCell (x f + cx) (y f + cy) rune_space
                                      ColorDefault ColorDefault) /\
  (forall width, Clear (mkFrame (x f) (y f) width (h f)) = Clear f) /\
  (x f <= 0 -> Clear f = []).
Proof.
  split; [|split].
  - intros c. unfold Clear. rewrite in_flat_map. split.
    + intros (cy & Hcy & Hc). apply in_map_iff in Hc.
      destruct Hc as (cx & <- & Hcx). apply upto_In in Hcy, Hcx.
      exists cx, cy. repeat split; try lia.
    + intros (cx & cy & Hx & Hy & ->). exists cy. split.
      * apply upto_In. lia.
      * apply in_map_iff. exists cx. split; [reflexivity|].
        apply upto_In. lia.
  - intros width. reflexivity.
  - intros Hx. unfold Clear. rewrite (upto_empty 0 (x f - 1)) by lia.
    induction (upto 0 (h f - 1)); [reflexivity | assumption].
Qed.

Lemma Clear_uses_frame_position_witness :
  Clear (volumeFrame 11 24) = [].
Proof.
  apply (Clear_uses_frame_position (volumeFrame 11 24)). cbn. lia.
Defined.

(** ** Boxes *)

Lemma find_app {A : Type} (p : A -> bool) l1 l2 :
  find p (l1 ++ l2) =
  match find p l1 with Some a => Some a | None => find p l2 end.
Proof.
  induction l1 as [|a t IH]; cbn; [reflexivity|].
  destruct (p a); [reflexivity | exact IH].
Qed.

Lemma cellAt_app l1 l2 cx cy :
  cellAt (l1 ++ l2) cx cy =
  match cellAt l2 cx cy with Some c => Some c | None => cellAt l1 cx cy end.
Proof. unfold cellAt. now rewrite rev_app_distr, find_app. Qed.

Lemma cellAt_uniform l cx cy c :
  In c l -> cell_x c = cx -> cell_y c = cy ->
  (forall c', In c' l -> cell_x c' = cx -> cell_y c' = cy -> c' = c) ->
  cellAt l cx cy = Some c.
Proof.
  intros Hin Hx Hy Hall. unfold cellAt.
  destruct (find _ (rev l)) as [c'|] eqn:E.
  - apply find_some in E. destruct E as [Hin' Hp].
    apply in_rev in Hin'. apply andb_prop in Hp. destruct Hp as [Hx' Hy'].
    apply Z.eqb_eq in Hx', Hy'. f_equal. now apply Hall.
  - pose proof (find_none _ _ E c ltac:(now apply in_rev in Hin)) as Hn.
    cbn beta in Hn. subst. rewrite !Z.eqb_refl in Hn. discriminate.
Qed.

Lemma cellAt_none l cx cy :
  (forall c, In c l -> cell_x c <> cx \/ cell_y c <> cy) ->
  cellAt l cx cy = None.
Proof.
  intros Hall. unfold cellAt.
  destruct (find _ (rev l)) as [c'|] eqn:E; [|reflexivity].
  apply find_some in E. destruct E as [Hin' Hp].
  apply in_rev in Hin'. apply andb_prop in Hp. destruct Hp as [Hx' Hy'].
  apply Z.eqb_eq in Hx', Hy'. destruct (Hall c' Hin'); contradiction.
Qed.

(** The cells [DrawBox] sets: the two vertical sides, the two horizontal
    sides, the four corners. *)
Lemma DrawBox_In bx by_ bw bh fg bg c :
  In c (DrawBox bx by_ bw bh fg bg) <->
  (exists i, 0 <= i < bh /\
             (c = mkCell bx (by_ + i) rune_vertical fg bg \/
              c = mkCell (bx + bw) (by_ + i) rune_vertical fg bg)) \/
  (exists i, 0 <= i < bw /\
             (c = mkCell (bx + i) by_ rune_horizontal fg bg \/
              c = mkCell (bx + i) (by_ + bh) rune_horizontal fg bg)) \/
  In c [mkCell bx by_ rune_top_left fg bg;
        mkCell bx (by_ + bh) rune_bottom_left fg bg;
        mkCell (bx + bw) by_ rune_top_right fg bg;
        mkCell (bx + bw) (by_ + bh) rune_bottom_right fg bg].
Proof.
  unfold DrawBox. rewrite !in_app_iff, !in_flat_map. split.
  - intros [(i & Hi & Hc) | [(i & Hi & Hc) | Hc]].
    + left. exists i. apply upto_In in Hi. split; [lia|].
      destruct Hc as [<- | [<- | []]]; auto.
    + right. left. exists i. apply upto_In in Hi. split; [lia|].
      destruct Hc as [<- | [<- | []]]; auto.
    + right. right. exact Hc.
  - intros [(i & Hi & Hc) | [(i & Hi & Hc) | Hc]].
    + left. exists i. split; [apply upto_In; lia|].
      destruct Hc as [-> | ->]; [now left | right; now left].
    + right. left. exists i. split; [apply upto_In; lia|].
      destruct Hc as [-> | ->]; [now left | right; now left].
    + right. right. exact Hc.
Qed.

Lemma DrawBox_range bx by_ bw bh fg bg c :
  0 <= bw -> 0 <= bh -> In c (DrawBox bx by_ bw bh fg bg) ->
  bx <= cell_x c <= bx + bw /\ by_ <= cell_y c <= by_ + bh.
Proof.
  intros Hw Hh Hin. apply DrawBox_In in Hin.
  destruct Hin as [(i & Hi & [-> | ->]) | [(i & Hi & [-> | ->]) | Hc]];
    cbn; try lia.
  destruct Hc as [<- | [<- | [<- | [<- | []]]]]; cbn; lia.
Qed.

Ltac eqb_cases :=
  repeat match goal with
         | |- context [(?a =? ?b)%Z] =>
           destruct (Z.eqb_spec a b); try lia; cbn [andb]
         end.

Ltac box_cases H :=
  apply DrawBox_In in H;
  destruct H as [(?i & ?Hi & [-> | ->]) | [(?i & ?Hi & [-> | ->]) | H]];
  [ | | | | destruct H as [<- | [<- | [<- | [<- | []]]]]];
  cbn [cell_x cell_y] in *.

(** X14: on the screen a box of positive width and height shows its four
    corner characters at the corners (they are written last, over the ends
    of the sides), the horizontal line strictly between the corners of the
    top and bottom rows, the vertical line strictly between those of the
    left and right columns, and nothing inside. *)
Theorem DrawBox_picture (bx by_ bw bh : Z) (fg bg : Attribute) :
  0 < bw -> 0 < bh ->
  let box := DrawBox bx by_ bw bh fg bg in
  cellAt box bx by_ = Some (mkCell bx by_ rune_top_left fg bg) /\
  cellAt box bx (by_ + bh)
  = Some (mkCell bx (by_ + bh) rune_bottom_left fg bg) /\
  cellAt box (bx + bw) by_ = Some (mkCell (bx + bw) by_ rune_top_right fg bg) /\
  cellAt box (bx + bw) (by_ + bh)
  = Some (mkCell (bx + bw) (by_ + bh) rune_bottom_right fg bg) /\
  (forall i, 0 < i < bw ->
     cellAt box (bx + i) by_ = Some (mkCell (bx + i) by_ rune_horizontal fg bg) /\
     cellAt box (bx + i) (by_ + bh)
     = Some (mkCell (bx + i) (by_ + bh) rune_horizontal fg bg)) /\
  (forall i, 0 < i < bh ->
     cellAt box bx (by_ + i) = Some (mkCell bx (by_ + i) rune_vertical fg bg) /\
     cellAt box (bx + bw) (by_ + i)
     = Some (mkCell (bx + bw) (by_ + i) rune_vertical fg bg)) /\
  (forall cx cy, bx < cx < bx + bw -> by_ < cy < by_ + bh ->
                 cellAt box cx cy = None).
Proof.
  intros Hw Hh box.
  assert (Hcorner : forall cx cy,
             cellAt box cx cy =
             match cellAt [mkCell bx by_ rune_top_left fg bg;
                           mkCell bx (by_ + bh) rune_bottom_left fg bg;
                           mkCell (bx + bw) by_ rune_top_right fg bg;
                           mkCell (bx + bw) (by_ + bh) rune_bottom_right fg bg]
                          cx cy with
             | Some c => Some c
             | None => cellAt (flat_map
                                 (fun i => [mkCell bx (by_ + i) rune_vertical fg bg;
                                            mkCell (bx + bw) (by_ + i)
                                                   rune_vertical fg bg])
                                 (upto 0 (bh - 1))
                               ++ flat_map
                                    (fun i => [mkCell (bx + i) by_
                                                      rune_horizontal fg bg;
                                               mkCell (bx + i) (by_ + bh)
                                                      rune_horizontal fg bg])
                                    (upto 0 (bw - 1))) cx cy
             end).
  { intros cx cy. subst box. unfold DrawBox.
    rewrite app_assoc. apply cellAt_app. }
  assert (Hcorner' : forall cx cy c,
             cellAt [mkCell bx by_ rune_top_left fg bg;
                     mkCell bx (by_ + bh) rune_bottom_left fg bg;
                     mkCell (bx + bw) by_ rune_top_right fg bg;
                     mkCell (bx + bw) (by_ + bh) rune_bottom_right fg bg]
                    cx cy = Some c ->
             cellAt box cx cy = Some c).
  { intros cx cy c E. now rewrite Hcorner, E. }
  split; [|split; [|split; [|split; [|split; [|split]]]]].
  - apply Hcorner'. unfold cellAt. cbn [rev app find cell_x cell_y].
    eqb_cases. reflexivity.
  - apply Hcorner'. unfold cellAt. cbn [rev app find cell_x cell_y].
    eqb_cases. reflexivity.
  - apply Hcorner'. unfold cellAt. cbn [rev app find cell_x cell_y].
    eqb_cases. reflexivity.
  - apply Hcorner'. unfold cellAt. cbn [rev app find cell_x cell_y].
    eqb_cases. reflexivity.
  - intros i Hi. split; apply cellAt_uniform; try reflexivity.
    + apply DrawBox_In. right. left. exists i. split; [lia | now left].
    + intros c' Hin Hx Hy. box_cases Hin; try lia; f_equal; lia.
    + apply DrawBox_In. right. left. exists i. split; [lia | now right].
    + intros c' Hin Hx Hy. box_cases Hin; try lia; f_equal; lia.
  - intros i Hi. split; apply cellAt_uniform; try reflexivity.
    + apply DrawBox_In. left. exists i. split; [lia | now left].
    + intros c' Hin Hx Hy. box_cases Hin; try lia; f_equal; lia.
    + apply DrawBox_In. left. exists i. split; [lia | now right].
    + intros c' Hin Hx Hy. box_cases Hin; try lia; f_equal; lia.
  - intros cx cy Hx Hy. apply cellAt_none. intros c Hin.
    box_cases Hin; lia.
Qed.

Lemma DrawBox_picture_witness :
  cellAt (DrawBox 0 1 11 22 ColorWhite ColorDefault) 0 1
  = Some (mkCell 0 1 rune_top_left ColorWhite ColorDefault).
Proof.
  apply (DrawBox_picture 0 1 11 22 ColorWhite ColorDefault); lia.
Defined.

(** X15: for panel widths that are not negative, a terminal wide enough
    for them and at least two rows high, the boxes of the three panels of
    [Draw] stay on the screen below the header row and side by side: the
    volume box in columns 0..volumeWidth, the candle box in the next
    candleWidth+1 columns, the trade box from there to the last column. *)
Theorem panels_tile_the_screen (volumeWidth tradeWidth width height : Z)
  (fg bg : Attribute) :
  0 <= volumeWidth -> 0 <= tradeWidth ->
  volumeWidth + tradeWidth + 3 <= width -> 2 <= height ->
  let candleW := candleWidth volumeWidth tradeWidth width in
  (forall c, In c (Box (volumeFrame volumeWidth height) fg bg) ->
             0 <= cell_x c <= volumeWidth /\ 1 <= cell_y c <= height - 1) /\
  (forall c, In c (Box (candleFrame volumeWidth tradeWidth width height) fg bg) ->
             volumeWidth + 1 <= cell_x c <= volumeWidth + 1 + candleW /\
             1 <= cell_y c <= height - 1) /\
  (forall c, In c (Box (tradeFrame volumeWidth tradeWidth width height) fg bg) ->
             volumeWidth + candleW + 2 <= cell_x c <= width - 1 /\
             1 <= cell_y c <= height - 1).
Proof.
  intros Hv Ht Hw Hh candleW. subst candleW.
  unfold Box, volumeFrame, candleFrame, tradeFrame, candleWidth.
  cbn [x y w h].
  split; [|split]; intros c Hin; apply DrawBox_range in Hin; lia.
Qed.

Lemma panels_tile_the_screen_witness :
  Forall (fun c => 65 <= cell_x c <= 79 /\ 1 <= cell_y c <= 23)
         (Box (tradeFrame 11 14 80 24) ColorWhite ColorDefault).
Proof.
  apply Forall_forall. intros c Hin.
  apply (panels_tile_the_screen 11 14 80 24 ColorWhite ColorDefault);
    try lia; exact Hin.
Defined.

(** * The rows of the panels *)

Lemma rowsFrom_snd height line l :
  map snd (rowsFrom height line l) = firstn (Z.to_nat (height - line)) l.
Proof.
  revert line. induction l as [|b older IH]; intros line; cbn [rowsFrom].
  - now rewrite firstn_nil.
  - destruct (Z.ltb_spec line height).
    + replace (Z.to_nat (height - line))
        with (S (Z.to_nat (height - (line + 1)))) by lia.
      cbn [map snd firstn]. now rewrite IH.
    + replace (Z.to_nat (height - line)) with O by lia. reflexivity.
Qed.

Lemma rowsFrom_nth height line l k row :
  nth_error (rowsFrom height line l) k = Some row ->
  fst row = line + Z.of_nat k /\ fst row < height.
Proof.
  revert line k. induction l as [|b older IH]; intros line k H;
    cbn [rowsFrom] in H.
  - now destruct k.
  - destruct (Z.ltb_spec line height); [|now destruct k].
    destruct k as [|k]; cbn [nth_error] in H.
    + injection H as <-. cbn. lia.
    + apply IH in H. lia.
Qed.

Lemma rowsFrom_In height line l row :
  In row (rowsFrom height line l) ->
  line <= fst row < height /\ In (snd row) l.
Proof.
  intros Hin. split.
  - apply In_nth_error in Hin. destruct Hin as [k Hk].
    apply rowsFrom_nth in Hk. lia.
  - assert (H : In (snd row) (map snd (rowsFrom height line l)))
      by now apply in_map.
    rewrite rowsFrom_snd in H.
    rewrite <- (firstn_skipn (Z.to_nat (height - line)) l).
    apply in_or_app. now left.
Qed.

(** X16: the row loop of the candle and volume panels gives a row to the
    newest buckets only, as many as the panel height minus one, the newest
    on row 1 and the older ones below, on rows 2, 3, and so on. *)
Theorem rows_show_newest (f : Frame) (bs : list Bucket) :
  map snd (rows f bs) = firstn (Z.to_nat (h f - 1)) (rev bs) /\
  visible f bs = skipn (List.length bs - Z.to_nat (h f - 1)) bs /\
  List.length (rows f bs) = Nat.min (Z.to_nat (h f - 1)) (List.length bs) /\
  forall k row, nth_error (rows f bs) k = Some row ->
                fst row = 1 + Z.of_nat k.
Proof.
  unfold visible, rows.
  assert (E : map snd (rowsFrom (h f) 1 (rev bs))
              = firstn (Z.to_nat (h f - 1)) (rev bs))
    by apply rowsFrom_snd.
  split; [exact E|]. split; [|split].
  - rewrite E, firstn_rev, rev_involutive. reflexivity.
  - rewrite <- (length_map snd), E, length_firstn, length_rev. reflexivity.
  - intros k row H. now apply rowsFrom_nth in H.
Qed.

Lemma tradeRowsFrom_data height i l :
  map (fun c => (call_side c, call_price c)) (tradeRowsFrom height i l)
  = map (fun m => (Side m, Price m)) (firstn (Z.to_nat (height - i)) l).
Proof.
  revert i. induction l as [|m older IH]; intros i; cbn [tradeRowsFrom].
  - now rewrite firstn_nil.
  - destruct (Z.ltb_spec i height).
    + replace (Z.to_nat (height - i))
        with (S (Z.to_nat (height - (i + 1)))) by lia.
      cbn [map firstn call_side call_price]. now rewrite IH.
    + replace (Z.to_nat (height - i)) with O by lia. reflexivity.
Qed.

Lemma tradeRowsFrom_nth height i l k c :
  nth_error (tradeRowsFrom height i l) k = Some c ->
  call_y c = i + Z.of_nat k /\ call_x c = 1 /\ call_bold c = true /\
  call_bg c = ColorDefault /\
  (call_fg c = ColorRed <-> call_side c = "sell"%string) /\
  (call_fg c = ColorGreen <-> call_side c <> "sell"%string).
Proof.
  revert i k. induction l as [|m older IH]; intros i k H;
    cbn [tradeRowsFrom] in H.
  - now destruct k.
  - destruct (Z.ltb_spec i height); [|now destruct k].
    destruct k as [|k]; cbn [nth_error] in H.
    + injection H as <-. cbn. unfold tradeColor.
      destruct (String.eqb_spec (Side m) "sell") as [-> | Hne].
      * repeat split; try lia; try discriminate; congruence.
      * repeat split; try lia; try discriminate; congruence.
    + apply IH in H. destruct H as (Hy & H). split; [lia | exact H].
Qed.

(** X17: [DrawTrades] prints the newest trades only, as many as the panel
    height minus one, the newest on row 1 and the older ones on the rows
    below, each at column 1 in bold with its side and price; a trade is
    printed red exactly when its side is "sell" and green for any other
    side. *)
Theorem DrawTrades_shows_newest (f : Frame) (ts : list Message) :
  map (fun c => (call_side c, call_price c)) (tradeRows f ts)
  = map (fun m => (Side m, Price m)) (firstn (Z.to_nat (h f - 1)) (rev ts)) /\
  forall k c, nth_error (tradeRows f ts) k = Some c ->
              call_y c = 1 + Z.of_nat k /\ call_x c = 1 /\
              call_bold c = true /\ call_bg c = ColorDefault /\
              (call_fg c = ColorRed <-> call_side c = "sell"%string) /\
              (call_fg c = ColorGreen <-> call_side c <> "sell"%string).
Proof.
  unfold tradeRows. split; [apply tradeRowsFrom_data|].
  intros k c H. now apply tradeRowsFrom_nth in H.
Qed.

(** * The header *)

Lemma str_app_assoc (a b c : string) :
  ((a ++ b) ++ c = a ++ (b ++ c))%string.
Proof. induction a as [|ch a IH]; cbn; [reflexivity | now rewrite IH]. Qed.

Lemma str_length_app (a b : string) :
  String.length (a ++ b) = (String.length a + String.length b)%nat.
Proof. induction a as [|ch a IH]; cbn; [reflexivity | now rewrite IH]. Qed.

Lemma substring_all (s : string) : substring 0 (String.length s) s = s.
Proof. induction s as [|ch s IH]; cbn; [reflexivity | now rewrite IH]. Qed.

Lemma substring_app_l (a b : string) :
  substring 0 (String.length a) (a ++ b) = a.
Proof.
  induction a as [|ch a IH]; cbn.
  - now destruct b.
  - now rewrite IH.
Qed.

Lemma substring_app_r (a b : string) :
  substring (String.length a) (String.length b) (a ++ b) = b.
Proof.
  induction a as [|ch a IH]; cbn; [apply substring_all | exact IH].
Qed.

Lemma substring_split (s : string) (n : nat) :
  (n <= String.length s)%nat ->
  s = (substring 0 n s ++ substring n (String.length s - n) s)%string.
Proof.
  revert n. induction s as [|ch s IH]; intros n Hn.
  - cbn in Hn. replace n with O by lia. reflexivity.
  - destruct n as [|n].
    + cbn. now rewrite substring_all.
    + cbn in *. rewrite <- IH by lia. reflexivity.
Qed.

Lemma HasSuffix_app (a b : string) : HasSuffix (a ++ b) b = true.
Proof.
  unfold HasSuffix. rewrite str_length_app.
  replace (String.length a + String.length b - String.length b)%nat
    with (String.length a) by lia.
  rewrite substring_app_r, String.eqb_refl, andb_true_r.
  apply Nat.leb_le. lia.
Qed.

Lemma HasSuffix_inv (s suffix : string) :
  HasSuffix s suffix = true ->
  s = (substring 0 (String.length s - String.length suffix) s ++ suffix)%string.
Proof.
  unfold HasSuffix. intros H. apply andb_prop in H. destruct H as [Hl He].
  apply Nat.leb_le in Hl. apply String.eqb_eq in He.
  pose proof (substring_split s (String.length s - String.length suffix)
                ltac:(lia)) as H.
  replace (String.length s - (String.length s - String.length suffix))%nat
    with (String.length suffix) in H by lia.
  now rewrite He in H.
Qed.

Lemma drop_two (a : string) (c1 c2 : ascii) :
  substring 0 (String.length (a ++ String c1 (String c2 EmptyString)) - 2)
            (a ++ String c1 (String c2 EmptyString)) = a.
Proof.
  rewrite str_length_app. cbn [String.length].
  replace (String.length a + 2 - 2)%nat with (String.length a) by lia.
  apply substring_app_l.
Qed.

(** X20: on the text of a duration, [shortDuration] turns a whole number
    of hours ["..h0m0s"] into ["..h"], turns a whole number of minutes
    ["..m0s"] into ["..m"] when what remains does not end in ["h0m"], and
    leaves alone a text that ends neither in ["m0s"] nor in ["h0m"]. *)
Theorem shortDuration_drops_zero_units (p : string) :
  shortDuration (p ++ "h0m0s") = (p ++ "h")%string /\
  (HasSuffix (p ++ "m") "h0m" = false ->
   shortDuration (p ++ "m0s") = (p ++ "m")%string) /\
  (HasSuffix p "m0s" = false -> HasSuffix p "h0m" = false ->
   shortDuration p = p).
Proof.
  split; [|split].
  - unfold shortDuration.
    replace (p ++ "h0m0s")%string with ((p ++ "h0") ++ "m0s")%string
      by (now rewrite str_app_assoc).
    rewrite HasSuffix_app.
    replace ((p ++ "h0") ++ "m0s")%string with ((p ++ "h0m") ++ "0s")%string
      by (now rewrite !str_app_assoc).
    rewrite (drop_two (p ++ "h0m") "0" "s").
    replace (p ++ "h0m")%string with ((p ++ "h") ++ "0m")%string at 2 3
      by (now rewrite str_app_assoc).
    rewrite HasSuffix_app. apply (drop_two (p ++ "h") "0" "m").
  - intros Hno. unfold shortDuration. rewrite HasSuffix_app.
    replace (p ++ "m0s")%string with ((p ++ "m") ++ "0s")%string
      by (now rewrite str_app_assoc).
    rewrite (drop_two (p ++ "m") "0" "s"). now rewrite Hno.
  - intros H1 H2. unfold shortDuration. now rewrite H1, H2.
Qed.

Lemma shortDuration_drops_zero_units_witness :
  shortDuration "15m0s" = "15m"%string /\
  shortDuration "1h30m0s" = "1h30m"%string /\
  shortDuration "1m30s" = "1m30s"%string.
Proof.
  split; [|split].
  - apply (shortDuration_drops_zero_units "15"). reflexivity.
  - apply (shortDuration_drops_zero_units "1h30"). reflexivity.
  - apply (shortDuration_drops_zero_units "1m30s"); reflexivity.
Defined.

(** X21: [shortDuration] only ever cuts the end of the text: the result
    is the text without a final ["0s"], ["0m"] or ["0m0s"], or the text
    itself. *)
Theorem shortDuration_cuts_the_end (s : string) :
  exists cut,
    s = (shortDuration s ++ cut)%string /\
    (cut = EmptyString \/ cut = "0s"%string \/ cut = "0m"%string \/
     cut = "0m0s"%string).
Proof.
  assert (Hcut : forall t suffix c1 c2 rest,
             suffix = String c1 (String c2 (String rest EmptyString)) ->
             HasSuffix t suffix = true ->
             t = (substring 0 (String.length t - 2) t
                  ++ String c2 (String rest EmptyString))%string).
  { intros t suffix c1 c2 rest -> H. apply HasSuffix_inv in H.
    cbn [String.length] in H.
    set (a := substring 0 (String.length t - 3) t) in *.
    rewrite H at 2 3.
    replace (a ++ String c1 (String c2 (String rest EmptyString)))%string
      with ((a ++ String c1 EmptyString)
            ++ String c2 (String rest EmptyString))%string
      by (now rewrite str_app_assoc).
    rewrite (drop_two (a ++ String c1 EmptyString) c2 rest), str_app_assoc.
    exact H. }
  unfold shortDuration.
  destruct (HasSuffix s "m0s") eqn:E1.
  - pose proof (Hcut s _ _ _ _ eq_refl E1) as H1.
    set (s1 := substring 0 (String.length s - 2) s) in *.
    destruct (HasSuffix s1 "h0m") eqn:E2.
    + pose proof (Hcut s1 _ _ _ _ eq_refl E2) as H2.
      exists "0m0s"%string. split; [|auto].
      rewrite H1 at 1. rewrite H2 at 1. now rewrite str_app_assoc.
    + exists "0s"%string. split; [exact H1 | auto].
  - destruct (HasSuffix s "h0m") eqn:E2.
    + pose proof (Hcut s _ _ _ _ eq_refl E2) as H2.
      exists "0m"%string. split; [exact H2 | auto].
    + exists EmptyString. split; [|auto].
      induction s as [|c s' IH]; cbn; [reflexivity|]. clear.
      f_equal. induction s'; cbn; [reflexivity | now f_equal].
Qed.

(** * The column formula with its roundings *)

(** X22: the column formula of [DrawCandles] evaluated in IEEE 754
    binary64, with its roundings: for finite bounds with a finite non-zero
    spread and a panel width from 0 to 65536, the column of the lower bound
    is exactly 1 and the column of the upper bound is exactly
    [float64(width - 1)]. *)
Theorem binary64_column_edges (width : Z) (lower upper : spec_float)
  (s : bool) (m : positive) (e : Z) :
  0 <= width <= 65536 ->
  finite_or_zero lower = true ->
  f64_sub upper lower = S754_finite s m e ->
  column64 width lower (f64_sub upper lower) lower = f64_of_int 1 /\
  column64 width lower (f64_sub upper lower) upper = f64_of_int (width - 1).
Proof.
  intros Hw Hl Hs.
  assert (Hc : widthCheck width = true)
    by (apply (widthsFrom_sound _ _ widths_checked); lia).
  unfold widthCheck in Hc. apply andb_prop in Hc. destruct Hc as [Hf He].
  apply spec_float_eqb_eq in He.
  unfold column64. rewrite Hs. split.
  - rewrite (f64_sub_self lower Hl). now apply one_plus_zero_times.
  - rewrite f64_div_self. exact He.
Qed.

Lemma binary64_column_edges_witness :
  column64 80 (f64_of_int 98) (f64_sub (f64_of_int 198) (f64_of_int 98))
           (f64_of_int 98) = f64_of_int 1 /\
  column64 80 (f64_of_int 98) (f64_sub (f64_of_int 198) (f64_of_int 98))
           (f64_of_int 198) = f64_of_int 79.
Proof.
  eapply (binary64_column_edges 80 (f64_of_int 98) (f64_of_int 198)).
  - lia.
  - reflexivity.
  - vm_compute. reflexivity.
Defined.
